(** * The inter-node relay fabric of the clustered broker (package [cluster])

    A shallow embedding of the gRPC relay layer: the [RpcService] server
    with its four inbound handlers, and the [ClientManager] pool of peer
    clients with its unicast and broadcast relay calls.

    Conventions of the embedding.
    - Go's fixed-width unsigned integers are [Z] values; the conversions
      [uint8(x)] and [uint32(x)] are written out as reductions modulo
      [2^8] and [2^32].
    - A Go [error] is its message; [nil] is [None].
    - Everything the code does to the outside (listening, dialing, an RPC,
      a channel send, a log call) is recorded as an [Event] in the trace of
      the [World]; what the outside answers is read from an [Env], an
      oracle indexed by a logical clock that advances at every interaction.
    - The map [ClientManager.cs] is a [gmap string client]; a [client] is
      identified by the connection it wraps.
    - The code is modelled one call at a time: [sync.Mutex] and the
      scheduling of goroutines are not part of the model. *)

From Stdlib Require Import ZArith Ascii.
From stdpp Require Import gmap strings list pretty.

Open Scope Z_scope.

(** ** Machine integers *)

(** [uint8(x)]: keep the low 8 bits. *)
Definition uint8 (x : Z) : Z := x mod 2 ^ 8.

(** [uint32(x)]: keep the low 32 bits. *)
Definition uint32 (x : Z) : Z := x mod 2 ^ 32.

Arguments uint8 : simpl never.
Arguments uint32 : simpl never.

Definition is_uint8 (x : Z) : Prop := 0 <= x < 2 ^ 8.
Definition is_uint32 (x : Z) : Prop := 0 <= x < 2 ^ 32.

(** ** Go library functions used by the package *)

Definition error : Type := string.

(** [errors.New(msg)]. *)
Definition errors_New (msg : string) : error := msg.

(** [fmt.Errorf("dialing failed: %v", err)]. *)
Definition dialing_failed (err : error) : error := "dialing failed: " +:+ err.

(** [strconv.Itoa]. *)
Definition Itoa (n : Z) : string := pretty n.

Fixpoint has_colon (s : string) : bool :=
  match s with
  | EmptyString => false
  | String a s' => if Ascii.eqb a ":"%char then true else has_colon s'
  end.

(** [net.JoinHostPort]: a host with a colon in it is bracketed. *)
Definition JoinHostPort (host port : string) : string :=
  if has_colon host then "[" +:+ host +:+ "]:" +:+ port
  else host +:+ ":" +:+ port.

(** [time.Second], in nanoseconds, and the package constant [ReqTimeout]. *)
Definition Second : Z := 1000000000.
Definition ReqTimeout : Z := 1 * Second.

(** ** Data: messages, wire requests, members *)

(** [message.Message]; [Type_] is the Go field [Type]. *)
Record Message := {
  Type_ : Z;
  NodeID : string;
  ClientID : string;
  ProtocolVersion : Z;
  Payload : list Byte.byte
}.

(** The four request shapes of package [crpc] and the uniform response. *)
Record PublishRequest := {
  pub_NodeId : string;
  pub_ClientId : string;
  pub_ProtocolVersion : Z;
  pub_Payload : list Byte.byte
}.

Record ConnectRequest := {
  con_NodeId : string;
  con_ClientId : string
}.

Record ApplyRequest := {
  app_Action : Z;
  app_NodeId : string;
  app_Filter : list Byte.byte
}.

Record JoinRequest := {
  join_NodeId : string;
  join_Addr : string;
  join_Port : Z
}.

Record Response := { Ok : bool }.

(** A request together with the method of the [Relays] service it is sent
    to. *)
Inductive Request :=
| ReqPublishPacket (r : PublishRequest)
| ReqConnectNotify (r : ConnectRequest)
| ReqRaftApply (r : ApplyRequest)
| ReqRaftJoin (r : JoinRequest).

(** A record of the membership directory: its [Name] is the node id, the
    rest is opaque to this package. *)
Record Member := {
  Name : string;
  Meta : string
}.

(** The wrapper [client]: the connection it holds, named by the instant it
    was dialed. The stub is bound to the connection and adds nothing. *)
Record client := { conn : nat }.

Global Instance client_eq_dec : EqDecision client.
Proof. solve_decision. Defined.

(** What [getClient] returns: a client and a nil error, or a nil client
    and an error. *)
Inductive result (A : Type) :=
| Success (a : A)
| Failure (e : error).
Arguments Success {A} a.
Arguments Failure {A} e.

(** ** Effects *)

Inductive LogVal :=
| VErr (e : error)
| VStr (s : string).

Inductive Direction := DirectionOutbound.

(** The package's log helpers [OnConnectPacketLog], [OnApplyLog] and
    [OnJoinLog] are declared in another file: a call to one of them is
    recorded with its arguments. *)
Inductive Event :=
| EvNewServer (srv : nat)
| EvRegisterRelaysServer (srv : nat)
| EvGoServe (srv : nat) (addr : string)
| EvGracefulStop (srv : nat)
| EvChanSend (m : Message)
| EvDial (addr : string) (timeout : Z) (c : nat)
| EvClose (c : nat)
| EvCall (to : client) (timeout : Z) (req : Request)
| EvLogError (msg : string) (kv : list (string * LogVal))
| EvOnConnectPacketLog (d : Direction) (nodeId clientId : string)
| EvOnApplyLog (leaderId nodeId : string) (tp : Z) (filter : list Byte.byte)
    (prompt : string) (err : error)
| EvOnJoinLog (nodeId addr prompt : string) (err : error).

(** The [Agent] as this file uses it: its configuration, its view of the
    membership directory and the answers of the network. Every query to
    the outside carries the instant it is made at; [None] is a nil
    error. *)
Record Env := {
  BindAddr : string;
  GrpcPort : Z;
  RaftPort : Z;
  GetLocalName : string;
  Members : nat -> list Member;
  getNodeMember : nat -> string -> option Member;
  getGrpcAddr : Member -> string;
  net_Listen : nat -> string -> option error;
  grpc_Serve : nat -> nat -> option error;
  grpc_DialContext : nat -> string -> option error;
  grpc_Invoke : nat -> client -> Request -> option error
}.

(** The receiver of the server methods. [grpcServer] is the Go field of
    the same name; [None] is the nil pointer. *)
Record RpcService := {
  agent : Env;
  grpcServer : option nat
}.

(** The mutable state: the pool map [ClientManager.cs], the clock and the
    trace so far. *)
Record World := {
  cs : gmap string client;
  clock : nat;
  trace : list Event
}.

Definition M (A : Type) : Type := World -> A * World.

Global Instance M_ret : MRet M := fun A a w => (a, w).
Global Instance M_bind : MBind M :=
  fun A B f m w => let '(a, w') := m w in f a w'.

(** One interaction with the outside: read the clock and advance it. *)
Definition tick : M nat :=
  fun w => (clock w, {| cs := cs w; clock := S (clock w); trace := trace w |}).

Definition emit (e : Event) : M unit :=
  fun w => (tt, {| cs := cs w; clock := clock w; trace := trace w ++ [e] |}).

Definition get_cs : M (gmap string client) := fun w => (cs w, w).

Definition put_cs (m : gmap string client) : M unit :=
  fun w => (tt, {| cs := m; clock := clock w; trace := trace w |}).

(** [log.Error(msg, kv...)]. *)
Definition log_Error (msg : string) (kv : list (string * LogVal)) : M unit :=
  emit (EvLogError msg kv).

(** The constants [packets.Publish], [packets.Connect] and
    [message.RaftJoin] are declared in the packages [packets] and
    [message]; the handlers take them as given. *)
Record Consts := {
  packets_Publish : Z;
  packets_Connect : Z;
  message_RaftJoin : Z
}.

(** The Go zero values of the fields a composite literal leaves out. *)
Definition zero_string : string := "".
Definition zero_bytes : list Byte.byte := [].

(** ** The RPC server *)

Definition NewRpcService (a : Env) : RpcService :=
  {| agent := a; grpcServer := None |}.

(** The body of the goroutine started by [StartRpcServer]. *)
Definition serveTask (s : RpcService) (srv : nat) : M unit :=
  t ← tick;
  match grpc_Serve (agent s) t srv with
  | Some err => log_Error "grpc server serve" [("error", VErr err)]
  | None => mret tt
  end.

(** [StartRpcServer]. The server it creates is held in a local variable
    only: no statement of the method stores it in [s.grpcServer], so the
    receiver is the same after the call. *)
Definition StartRpcServer (s : RpcService) : M (option error) :=
  let addr := JoinHostPort (BindAddr (agent s)) (Itoa (GrpcPort (agent s))) in
  t ← tick;
  match net_Listen (agent s) t addr with
  | Some err => mret (Some err)
  | None =>
      srv ← tick;
      emit (EvNewServer srv);;
      emit (EvRegisterRelaysServer srv);;
      emit (EvGoServe srv addr);;
      mret None
  end.

(** [StopRpcServer] on a receiver that may be nil. *)
Definition StopRpcServer (s : option RpcService) : M unit :=
  match s with
  | None => mret tt
  | Some s' =>
      match grpcServer s' with
      | None => mret tt
      | Some srv => emit (EvGracefulStop srv)
      end
  end.

Section Handlers.
Variable K : Consts.

(** The message each handler builds from its request. *)
Definition PublishPacket_msg (req : PublishRequest) : Message :=
  {| Type_ := packets_Publish K;
     NodeID := pub_NodeId req;
     ClientID := pub_ClientId req;
     ProtocolVersion := uint8 (pub_ProtocolVersion req);
     Payload := pub_Payload req |}.

Definition ConnectNotify_msg (req : ConnectRequest) : Message :=
  {| Type_ := packets_Connect K;
     NodeID := con_NodeId req;
     ClientID := con_ClientId req;
     ProtocolVersion := 0;
     Payload := zero_bytes |}.

Definition RaftApply_msg (req : ApplyRequest) : Message :=
  {| Type_ := uint8 (app_Action req);
     NodeID := app_NodeId req;
     ClientID := zero_string;
     ProtocolVersion := 0;
     Payload := app_Filter req |}.

Definition RaftJoin_msg (req : JoinRequest) : Message :=
  let addr := JoinHostPort (join_Addr req) (Itoa (join_Port req)) in
  {| Type_ := message_RaftJoin K;
     NodeID := join_NodeId req;
     ClientID := zero_string;
     ProtocolVersion := 0;
     Payload := String.list_byte_of_string addr |}.

(** The handlers, in a run where [grpcMsgCh] takes the message: the
    message is built, the send is recorded, the handler answers. The send is
    a bare [ch <- &msg], which waits for the channel: the runs in which the
    channel does not take the message are those of [send_then_reply], further
    down. *)
Definition PublishPacket (req : PublishRequest) : M (Response * option error) :=
  emit (EvChanSend (PublishPacket_msg req));;
  mret ({| Ok := true |}, None).

Definition ConnectNotify (req : ConnectRequest) : M (Response * option error) :=
  emit (EvChanSend (ConnectNotify_msg req));;
  mret ({| Ok := true |}, None).

Definition RaftApply (req : ApplyRequest) : M (Response * option error) :=
  emit (EvChanSend (RaftApply_msg req));;
  mret ({| Ok := true |}, None).

Definition RaftJoin (req : JoinRequest) : M (Response * option error) :=
  emit (EvChanSend (RaftJoin_msg req));;
  mret ({| Ok := true |}, None).

(** The registered service: each method of [Relays] goes to its handler. *)
Definition serve (r : Request) : M (Response * option error) :=
  match r with
  | ReqPublishPacket req => PublishPacket req
  | ReqConnectNotify req => ConnectNotify req
  | ReqRaftApply req => RaftApply req
  | ReqRaftJoin req => RaftJoin req
  end.

End Handlers.

(** ** The pool of peer clients and the relay calls *)

Section ClientManager.
Variable env : Env.

(** [NewClientManager]: the pool starts with an empty map. *)
Definition NewClientManager : M unit := put_cs ∅.

Definition RemoveGrpcClient (nodeId : string) : M unit :=
  m ← get_cs;
  match m !! nodeId with
  | Some cl => put_cs (delete nodeId m);; emit (EvClose (conn cl))
  | None => mret tt
  end.

Definition getNodeAddr (nodeId : string) : M (string * option error) :=
  t ← tick;
  match getNodeMember env t nodeId with
  | None => mret ("", Some (errors_New "node not found"))
  | Some m => mret (getGrpcAddr env m, None)
  end.

Definition getClient (nodeId : string) : M (result client) :=
  m ← get_cs;
  match m !! nodeId with
  | Some sc => mret (Success sc)
  | None =>
      '(addr, err) ← getNodeAddr nodeId;
      if bool_decide (addr = "") || bool_decide (err ≠ None)
      then mret (Failure (errors_New "node not found"))
      else
        t ← tick;
        emit (EvDial addr (3 * ReqTimeout) t);;
        match grpc_DialContext env t addr with
        | Some e => mret (Failure (dialing_failed e))
        | None =>
            let wrapClient := {| conn := t |} in
            put_cs (<[nodeId := wrapClient]> m);;
            mret (Success wrapClient)
        end
  end.

(** A unary call on the stub of [cl] under a deadline. *)
Definition invoke (cl : client) (timeout : Z) (req : Request) : M (option error) :=
  t ← tick;
  emit (EvCall cl timeout req);;
  mret (grpc_Invoke env t cl req).

(** The requests the relay calls build. *)
Definition RelayPublishPacket_req (msg : Message) : PublishRequest :=
  {| pub_NodeId := NodeID msg;
     pub_ClientId := ClientID msg;
     pub_ProtocolVersion := uint32 (ProtocolVersion msg);
     pub_Payload := Payload msg |}.

Definition ConnectNotifyToNode_req (clientId : string) : ConnectRequest :=
  {| con_NodeId := GetLocalName env; con_ClientId := clientId |}.

Definition RelayRaftApply_req (msg : Message) : ApplyRequest :=
  {| app_Action := uint32 (Type_ msg);
     app_NodeId := NodeID msg;
     app_Filter := Payload msg |}.

Definition RelayRaftJoin_req : JoinRequest :=
  {| join_NodeId := GetLocalName env;
     join_Addr := BindAddr env;
     join_Port := uint32 (RaftPort env) |}.

Definition RelayPublishPacket (nodeId : string) (msg : Message) : M unit :=
  r ← getClient nodeId;
  match r with
  | Failure err => log_Error "get grpc client" [("error", VErr err)]
  | Success cl =>
      err ← invoke cl ReqTimeout (ReqPublishPacket (RelayPublishPacket_req msg));
      match err with
      | Some e =>
          log_Error "relay publish packet"
            [("error", VErr e); ("to", VStr nodeId); ("cid", VStr (ClientID msg))]
      | None => mret tt
      end
  end.

Definition ConnectNotifyToNode (nodeId clientId : string) : M unit :=
  r ← getClient nodeId;
  match r with
  | Failure err => mret tt
  | Success cl =>
      emit (EvOnConnectPacketLog DirectionOutbound nodeId clientId);;
      err ← invoke cl ReqTimeout (ReqConnectNotify (ConnectNotifyToNode_req clientId));
      match err with
      | Some e =>
          log_Error "connection notification"
            [("error", VErr e); ("to", VStr nodeId); ("cid", VStr clientId)]
      | None => mret tt
      end
  end.

Definition RelayRaftApply (nodeId : string) (msg : Message) : M unit :=
  r ← getClient nodeId;
  match r with
  | Failure err => log_Error "get grpc client" [("error", VErr err)]
  | Success cl =>
      err ← invoke cl (10 * ReqTimeout) (ReqRaftApply (RelayRaftApply_req msg));
      match err with
      | Some e =>
          emit (EvOnApplyLog nodeId (NodeID msg) (Type_ msg) (Payload msg)
                  "to leader do apply" e)
      | None => mret tt
      end
  end.

Definition RelayRaftJoin (nodeId : string) : M unit :=
  r ← getClient nodeId;
  match r with
  | Failure err => log_Error "get grpc client" [("error", VErr err)]
  | Success cl =>
      err ← invoke cl ReqTimeout (ReqRaftJoin RelayRaftJoin_req);
      match err with
      | Some e =>
          let addr := BindAddr env +:+ ":" +:+ Itoa (RaftPort env) in
          emit (EvOnJoinLog nodeId addr "raft join" e)
      | None => mret tt
      end
  end.

(** [for _, m := range ms { body }]. *)
Fixpoint range_members (ms : list Member) (body : Member -> M unit) : M unit :=
  match ms with
  | [] => mret tt
  | m :: ms' => body m;; range_members ms' body
  end.

(** The loop body shared by the three broadcasts: [continue] on the local
    node, the unicast call otherwise. *)
Definition others_body (call : string -> M unit) (m : Member) : M unit :=
  if bool_decide (Name m = GetLocalName env) then mret tt
  else call (Name m).

Definition ConnectNotifyToOthers (msg : Message) : M unit :=
  t ← tick;
  let ms := Members env t in
  range_members ms
    (others_body (fun nodeId => ConnectNotifyToNode nodeId (ClientID msg))).

Definition RaftApplyToOthers (msg : Message) : M unit :=
  t ← tick;
  let ms := Members env t in
  range_members ms (others_body (fun nodeId => RelayRaftApply nodeId msg)).

Definition RaftJoinToOthers : M unit :=
  t ← tick;
  let ms := Members env t in
  range_members ms (others_body RelayRaftJoin).

End ClientManager.

(** ** Observations on a run *)

(** What a computation adds to the trace when it is run from [w]. *)
Definition effects {A : Type} (c : M A) (w : World) : list Event :=
  drop (length (trace w)) (trace (c w).2).

(** The messages sent on [grpcMsgCh] among some events. *)
Definition sends (evs : list Event) : list Message :=
  omap (fun e => match e with EvChanSend m => Some m | _ => None end) evs.

(** The RPCs placed among some events: the client used and the request. *)
Definition calls (evs : list Event) : list (client * Request) :=
  omap (fun e => match e with EvCall cl _ r => Some (cl, r) | _ => None end) evs.

(** The failure reports among some events: a [log.Error] call, or a call of
    [OnApplyLog] or [OnJoinLog] (which are only reached with an error). *)
Definition is_report (e : Event) : bool :=
  match e with
  | EvLogError _ _ | EvOnApplyLog _ _ _ _ _ _ | EvOnJoinLog _ _ _ _ => true
  | _ => false
  end.

Definition reports (evs : list Event) : list Event := filter is_report evs.

(** The method of the [Relays] service a request is sent to. *)
Inductive Method := MPublishPacket | MConnectNotify | MRaftApply | MRaftJoin.

Global Instance Method_eq_dec : EqDecision Method.
Proof. solve_decision. Defined.

Definition method (r : Request) : Method :=
  match r with
  | ReqPublishPacket _ => MPublishPacket
  | ReqConnectNotify _ => MConnectNotify
  | ReqRaftApply _ => MRaftApply
  | ReqRaftJoin _ => MRaftJoin
  end.

(** The message the handler of a request's method builds. *)
Definition serve_msg (K : Consts) (r : Request) : Message :=
  match r with
  | ReqPublishPacket req => PublishPacket_msg K req
  | ReqConnectNotify req => ConnectNotify_msg K req
  | ReqRaftApply req => RaftApply_msg req
  | ReqRaftJoin req => RaftJoin_msg K req
  end.

(** ** The message channel *)

(** [grpcMsgCh] is a Go channel made by the agent, outside these files, so
    its capacity is left open. A channel is its capacity, the messages queued
    in its buffer (oldest first), the number of receivers parked on it, and
    the messages receivers have taken so far. *)
Record Chan := {
  chan_cap : nat;
  chan_buf : list Message;
  chan_waiting : nat;
  chan_taken : list Message
}.

(** [make(chan *message.Message, n)]. *)
Definition chan_make (n : nat) : Chan :=
  {| chan_cap := n; chan_buf := []; chan_waiting := 0; chan_taken := [] |}.

(** What holds of a channel from [make] on, through every send and receive:
    receivers park only on an empty channel, and the buffer never holds more
    than the capacity. *)
Definition chan_wf (ch : Chan) : Prop :=
  (length (chan_buf ch) <= chan_cap ch)%nat
  /\ ((0 < chan_waiting ch)%nat -> chan_buf ch = []).



Definition chan_send (ch : Chan) (m : Message) : option Chan :=
  if (0 <? chan_waiting ch)%nat then
    Some {| chan_cap := chan_cap ch;
            chan_buf := chan_buf ch;
            chan_waiting := pred (chan_waiting ch);
            chan_taken := chan_taken ch ++ [m] |}
  else if (length (chan_buf ch) <? chan_cap ch)%nat then
    Some {| chan_cap := chan_cap ch;
            chan_buf := chan_buf ch ++ [m];
            chan_waiting := chan_waiting ch;
            chan_taken := chan_taken ch |}
  else None.

(** A receive by the router: it takes the oldest queued message, or parks on
    the empty channel. *)
Definition chan_receive (ch : Chan) : Chan :=
  match chan_buf ch with
  | m :: buf =>
      {| chan_cap := chan_cap ch;
         chan_buf := buf;
         chan_waiting := chan_waiting ch;
         chan_taken := chan_taken ch ++ [m] |}
  | [] =>
      {| chan_cap := chan_cap ch;
         chan_buf := [];
         chan_waiting := S (chan_waiting ch);
         chan_taken := chan_taken ch |}
  end.

(** [grpcMsgCh <- &msg] in a handler: there is no [select] around it and the
    request's [ctx] is not looked at, so only the channel ends the wait.
    [router] lists what the router does while the sender waits, one entry
    per move ([true]: it receives from the channel, [false]: it is busy
    elsewhere). [None]: the sender is still parked when the list is used
    up. *)
Fixpoint await_send (router : list bool) (ch : Chan) (m : Message) : option Chan :=
  match chan_send ch m with
  | Some ch' => Some ch'
  | None =>
      match router with
      | [] => None
      | true :: router' => await_send router' (chan_receive ch) m
      | false :: router' => await_send router' ch m
      end
  end.

(** What the peer that placed the RPC gets from a handler: an answer, or
    nothing as long as the handler is parked on the channel. *)
Inductive rpc_result :=
| Replied (resp : Response) (err : option error) (ch : Chan) (w : World)
| Parked.

(** The body the four handlers share: send [msg], then return [ret]. *)
Definition send_then_reply (msg : Message) (ret : Response * option error)
    (router : list bool) (ch : Chan) (w : World) : rpc_result :=
  match await_send router ch msg with
  | Some ch' => Replied ret.1 ret.2 ch' (emit (EvChanSend msg) w).2
  | None => Parked
  end.

(** [RpcService.PublishPacket], [ConnectNotify], [RaftApply] and [RaftJoin]
    as the calling peer sees them, the wait for the channel included. *)
Definition PublishPacket_rpc (K : Consts) (req : PublishRequest) :=
  send_then_reply (PublishPacket_msg K req) ({| Ok := true |}, None).

Definition ConnectNotify_rpc (K : Consts) (req : ConnectRequest) :=
  send_then_reply (ConnectNotify_msg K req) ({| Ok := true |}, None).

Definition RaftApply_rpc (req : ApplyRequest) :=
  send_then_reply (RaftApply_msg req) ({| Ok := true |}, None).

Definition RaftJoin_rpc (K : Consts) (req : JoinRequest) :=
  send_then_reply (RaftJoin_msg K req) ({| Ok := true |}, None).

Definition serve_rpc (K : Consts) (r : Request) :=
  match r with
  | ReqPublishPacket req => PublishPacket_rpc K req
  | ReqConnectNotify req => ConnectNotify_rpc K req
  | ReqRaftApply req => RaftApply_rpc req
  | ReqRaftJoin req => RaftJoin_rpc K req
  end.

(** ** The pool as a transition system *)

(** The ways [getClient nodeId] can go from [w], read off its code: the
    result and the state it leaves. *)
Inductive getClient_outcome (env : Env) (nodeId : string) (w : World) :
  result client -> World -> Prop :=
| gc_cached sc :
    cs w !! nodeId = Some sc ->
    getClient_outcome env nodeId w (Success sc) w
| gc_unknown :
    cs w !! nodeId = None ->
    getNodeMember env (clock w) nodeId = None ->
    getClient_outcome env nodeId w (Failure "node not found")
      {| cs := cs w; clock := S (clock w); trace := trace w |}
| gc_no_addr m :
    cs w !! nodeId = None ->
    getNodeMember env (clock w) nodeId = Some m ->
    getGrpcAddr env m = "" ->
    getClient_outcome env nodeId w (Failure "node not found")
      {| cs := cs w; clock := S (clock w); trace := trace w |}
| gc_dial_failed m e :
    cs w !! nodeId = None ->
    getNodeMember env (clock w) nodeId = Some m ->
    getGrpcAddr env m <> "" ->
    grpc_DialContext env (S (clock w)) (getGrpcAddr env m) = Some e ->
    getClient_outcome env nodeId w (Failure (dialing_failed e))
      {| cs := cs w; clock := S (S (clock w));
         trace := trace w ++
           [EvDial (getGrpcAddr env m) (3 * ReqTimeout) (S (clock w))] |}
| gc_dialed m :
    cs w !! nodeId = None ->
    getNodeMember env (clock w) nodeId = Some m ->
    getGrpcAddr env m <> "" ->
    grpc_DialContext env (S (clock w)) (getGrpcAddr env m) = None ->
    getClient_outcome env nodeId w (Success {| conn := S (clock w) |})
      {| cs := <[nodeId := {| conn := S (clock w) |}]> (cs w);
         clock := S (S (clock w));
         trace := trace w ++
           [EvDial (getGrpcAddr env m) (3 * ReqTimeout) (S (clock w))] |}.

(** The elementary changes of state made by everything except
    [RemoveGrpcClient]: time passes, an event is recorded, a client dialed
    in the past is installed under a free key. *)
Inductive pool_step : World -> World -> Prop :=
| ps_tick w :
    pool_step w {| cs := cs w; clock := S (clock w); trace := trace w |}
| ps_emit w e :
    pool_step w {| cs := cs w; clock := clock w; trace := trace w ++ [e] |}
| ps_install w nodeId t :
    cs w !! nodeId = None ->
    (t < clock w)%nat ->
    pool_step w {| cs := <[nodeId := {| conn := t |}]> (cs w);
                   clock := clock w; trace := trace w |}.

(** Every cached client was dialed before now. *)
Definition pool_wf (w : World) : Prop :=
  forall nodeId c, cs w !! nodeId = Some c -> (conn c < clock w)%nat.

(** The calls one can make on a [ClientManager]. *)
Inductive PoolOp :=
| OpGetClient (nodeId : string)
| OpRemoveGrpcClient (nodeId : string)
| OpRelayPublishPacket (nodeId : string) (msg : Message)
| OpConnectNotifyToNode (nodeId clientId : string)
| OpConnectNotifyToOthers (msg : Message)
| OpRelayRaftApply (nodeId : string) (msg : Message)
| OpRaftApplyToOthers (msg : Message)
| OpRelayRaftJoin (nodeId : string)
| OpRaftJoinToOthers.

Definition run_op (env : Env) (op : PoolOp) : M unit :=
  match op with
  | OpGetClient nodeId => _ ← getClient env nodeId; mret tt
  | OpRemoveGrpcClient nodeId => RemoveGrpcClient nodeId
  | OpRelayPublishPacket nodeId msg => RelayPublishPacket env nodeId msg
  | OpConnectNotifyToNode nodeId clientId => ConnectNotifyToNode env nodeId clientId
  | OpConnectNotifyToOthers msg => ConnectNotifyToOthers env msg
  | OpRelayRaftApply nodeId msg => RelayRaftApply env nodeId msg
  | OpRaftApplyToOthers msg => RaftApplyToOthers env msg
  | OpRelayRaftJoin nodeId => RelayRaftJoin env nodeId
  | OpRaftJoinToOthers => RaftJoinToOthers env
  end.

Fixpoint run_ops (env : Env) (ops : list PoolOp) : M unit :=
  match ops with
  | [] => mret tt
  | op :: ops' => run_op env op;; run_ops env ops'
  end.

(** Whether a call is [RemoveGrpcClient nodeId]. *)
Definition removes (nodeId : string) (op : PoolOp) : bool :=
  match op with
  | OpRemoveGrpcClient n => bool_decide (n = nodeId)
  | _ => false
  end.

(** A computation that changes the state by [pool_step]s only. *)
Definition growing {A : Type} (c : M A) : Prop :=
  forall w, rtc pool_step w (c w).2.

(** The entries of a snapshot a broadcast does not skip. *)
Definition others (env : Env) (ms : list Member) : list Member :=
  filter (fun m => Name m <> GetLocalName env) ms.

(** One call with request [req] per listed member, on the client the pool
    holds for it. *)
Definition peers_calls (pool : gmap string client) (req : Request)
    (ms : list Member) : list (client * Request) :=
  omap (fun m => cl ← pool !! Name m; Some (cl, req)) ms.

(** A node's life as the host drives it: start the server, then stop it. *)
Definition start_then_stop (s : RpcService) : M (option error) :=
  err ← StartRpcServer s;
  StopRpcServer (Some s);;
  mret err.

(** ** Concrete nodes, used to run the definitions *)

Module Scenario.

Definition K0 : Consts :=
  {| packets_Publish := 3; packets_Connect := 1; message_RaftJoin := 20 |}.

Definition mA : Member := {| Name := "A"; Meta := "10.0.0.1:17946" |}.
Definition mB : Member := {| Name := "B"; Meta := "10.0.0.2:17946" |}.
Definition mC : Member := {| Name := "C"; Meta := "10.0.0.3:17946" |}.

Definition lookup_member (ms : list Member) (nodeId : string) : option Member :=
  List.find (fun m => bool_decide (Name m = nodeId)) ms.

(** Node A in a cluster {A, B, C} where everything answers. *)
Definition env_up : Env :=
  {| BindAddr := "10.0.0.1"; GrpcPort := 17946; RaftPort := 8946;
     GetLocalName := "A";
     Members := fun _ => [mA; mB; mC];
     getNodeMember := fun _ => lookup_member [mA; mB; mC];
     getGrpcAddr := Meta;
     net_Listen := fun _ _ => None;
     grpc_Serve := fun _ _ => None;
     grpc_DialContext := fun _ _ => None;
     grpc_Invoke := fun _ _ _ => None |}.

(** The same cluster seen from A when B refuses connections, every RPC
    fails, the port is taken and serving breaks. *)
Definition env_down : Env :=
  {| BindAddr := "10.0.0.1"; GrpcPort := 17946; RaftPort := 8946;
     GetLocalName := "A";
     Members := fun _ => [mA; mB; mC];
     getNodeMember := fun _ => lookup_member [mA; mB; mC];
     getGrpcAddr := Meta;
     net_Listen := fun _ _ => Some "bind: address already in use";
     grpc_Serve := fun _ _ => Some "use of closed network connection";
     grpc_DialContext :=
       fun _ addr => if bool_decide (addr = "10.0.0.2:17946")
                     then Some "connection refused" else None;
     grpc_Invoke := fun _ _ _ => Some "unavailable" |}.

(** A alone: the directory knows nobody. *)
Definition env_alone : Env :=
  {| BindAddr := "10.0.0.1"; GrpcPort := 17946; RaftPort := 8946;
     GetLocalName := "A";
     Members := fun _ => [mA];
     getNodeMember := fun _ _ => None;
     getGrpcAddr := Meta;
     net_Listen := fun _ _ => None;
     grpc_Serve := fun _ _ => None;
     grpc_DialContext := fun _ _ => None;
     grpc_Invoke := fun _ _ _ => None |}.

(** The cluster {A, B, C} as A sees it when B and C leave the directory
    after the instant 1. *)
Definition env_churn : Env :=
  {| BindAddr := "10.0.0.1"; GrpcPort := 17946; RaftPort := 8946;
     GetLocalName := "A";
     Members := fun t => if (t <? 2)%nat then [mA; mB; mC] else [mA];
     getNodeMember :=
       fun t nodeId =>
         if (t <? 2)%nat then lookup_member [mA; mB; mC] nodeId else None;
     getGrpcAddr := Meta;
     net_Listen := fun _ _ => None;
     grpc_Serve := fun _ _ => None;
     grpc_DialContext := fun _ _ => None;
     grpc_Invoke := fun _ _ _ => None |}.

Definition w0 : World := {| cs := ∅; clock := 0; trace := [] |}.

(** A pool that already holds a client for B. *)
Definition wB : World := {| cs := {["B" := {| conn := 0 |}]}; clock := 1; trace := [] |}.

Definition m_publish : Message :=
  {| Type_ := 3; NodeID := "A"; ClientID := "c1"; ProtocolVersion := 5;
     Payload := [Byte.xde; Byte.xad; Byte.xbe; Byte.xef] |}.

Definition apply_req (action : Z) : ApplyRequest :=
  {| app_Action := action; app_NodeId := "A"; app_Filter := [] |}.

(** An apply message: an action, the origin and a filter record. *)
Definition m_apply : Message :=
  {| Type_ := 8; NodeID := "A"; ClientID := ""; ProtocolVersion := 0;
     Payload := [Byte.x61; Byte.x2f; Byte.x62] |}.

End Scenario.

(** Message channels for the examples. *)
Module Sinks.






End Sinks.

(** ** The life of a connection *)

(** The common shape of the four unicast relay calls, as one state
    change: what is recorded when no client can be had, what is recorded
    before the RPC, the deadline and the request of the RPC, and what is
    recorded when the RPC fails. *)
Definition relay_shape (env : Env) (nodeId : string)
    (on_fail : error -> list Event) (pre : list Event)
    (timeout : Z) (req : Request) (on_err : error -> Event) : M unit :=
  fun w =>
    let r := getClient env nodeId w in
    match r.1 with
    | Failure err =>
        (tt, {| cs := cs r.2; clock := clock r.2; trace := trace r.2 ++ on_fail err |})
    | Success cl =>
        (tt, {| cs := cs r.2; clock := S (clock r.2);
                trace := trace r.2 ++ pre ++
                  EvCall cl timeout req ::
                  match grpc_Invoke env (clock r.2) cl req with
                  | Some e => [on_err e]
                  | None => []
                  end |})
    end.

(** The deadline each method is called under. *)
Definition deadline (r : Request) : Z :=
  match r with
  | ReqRaftApply _ => 10 * ReqTimeout
  | _ => ReqTimeout
  end.

(** Events that are neither a dial, a close nor an RPC. *)
Definition quiet (e : Event) : bool :=
  match e with
  | EvDial _ _ _ | EvClose _ | EvCall _ _ _ => false
  | _ => true
  end.

(** The elementary changes of state of a [ClientManager], with what each
    needs: an RPC goes out on a client the pool holds, under its method's
    deadline; a dial that succeeds installs the new connection under a free
    key; a remove closes the connection of the entry it drops. *)
Inductive cm_step (env : Env) : World -> World -> Prop :=
| cm_tick w :
    cm_step env w {| cs := cs w; clock := S (clock w); trace := trace w |}
| cm_log w e :
    quiet e = true ->
    cm_step env w {| cs := cs w; clock := clock w; trace := trace w ++ [e] |}
| cm_call w nodeId cl r :
    cs w !! nodeId = Some cl ->
    cm_step env w
      {| cs := cs w; clock := clock w;
         trace := trace w ++ [EvCall cl (deadline r) r] |}
| cm_dial_failed w addr e :
    grpc_DialContext env (clock w) addr = Some e ->
    cm_step env w
      {| cs := cs w; clock := S (clock w);
         trace := trace w ++ [EvDial addr (3 * ReqTimeout) (clock w)] |}
| cm_dial w nodeId addr :
    cs w !! nodeId = None ->
    grpc_DialContext env (clock w) addr = None ->
    cm_step env w
      {| cs := <[nodeId := {| conn := clock w |}]> (cs w); clock := S (clock w);
         trace := trace w ++ [EvDial addr (3 * ReqTimeout) (clock w)] |}
| cm_remove w nodeId c :
    cs w !! nodeId = Some c ->
    cm_step env w
      {| cs := delete nodeId (cs w); clock := clock w;
         trace := trace w ++ [EvClose (conn c)] |}.

(** The connections closed among some events, in order. *)
Definition closes (tr : list Event) : list nat :=
  omap (fun e => match e with EvClose t => Some t | _ => None end) tr.

(** What holds of a pool and its history in every state a fresh
    [ClientManager] can reach. *)
Record pool_inv (env : Env) (w : World) : Prop := {
  inv_old : forall k c, cs w !! k = Some c -> (conn c < clock w)%nat;
  inv_inj : forall k1 k2 c, cs w !! k1 = Some c -> cs w !! k2 = Some c -> k1 = k2;
  inv_open : forall k c, cs w !! k = Some c -> conn c ∉ closes (trace w);
  inv_closes_old : forall t, t ∈ closes (trace w) -> (t < clock w)%nat;
  inv_closes_once : NoDup (closes (trace w));
  inv_dialed : forall k c, cs w !! k = Some c ->
    exists i addr, trace w !! i = Some (EvDial addr (3 * ReqTimeout) (conn c))
                   /\ grpc_DialContext env (conn c) addr = None;
  inv_closed_dialed : forall i t, trace w !! i = Some (EvClose t) ->
    exists j addr, (j < i)%nat
                   /\ trace w !! j = Some (EvDial addr (3 * ReqTimeout) t)
                   /\ grpc_DialContext env t addr = None;
  inv_no_leak : forall addr timeout t,
    EvDial addr timeout t ∈ trace w ->
    grpc_DialContext env t addr = None ->
    (exists k, cs w !! k = Some {| conn := t |}) \/ t ∈ closes (trace w);
  inv_calls_open : forall i j cl timeout r,
    trace w !! j = Some (EvCall cl timeout r) ->
    trace w !! i = Some (EvClose (conn cl)) -> (j < i)%nat;
  inv_calls_dialed : forall j cl timeout r,
    trace w !! j = Some (EvCall cl timeout r) ->
    timeout = deadline r
    /\ exists i addr, (i < j)%nat
         /\ trace w !! i = Some (EvDial addr (3 * ReqTimeout) (conn cl))
         /\ grpc_DialContext env (conn cl) addr = None
}.

(** The state a [ClientManager] is in right after [NewClientManager], at
    any instant, with nothing recorded yet. *)
Definition started (clk : nat) : World :=
  (NewClientManager {| cs := ∅; clock := clk; trace := [] |}).2.

(** A computation that changes the state by [cm_step]s only. *)
Definition walks {A : Type} (env : Env) (c : M A) : Prop :=
  forall w, rtc (cm_step env) w (c w).2.

(** An RPC under its method's deadline, a dial under three times
    [ReqTimeout]; nothing is asked of the other events. *)
Definition timely (e : Event) : Prop :=
  match e with
  | EvCall _ timeout r => timeout = deadline r
  | EvDial _ timeout _ => timeout = 3 * ReqTimeout
  | _ => True
  end.

(** The RPCs of a loop over [ms], entry by entry and in order: for each
    entry either none, or exactly one, with the request [req], on the client
    [pool] holds under the name of that entry. *)
Definition one_call_each (pool : gmap string client) (req : Request)
    (ms : list Member) (placed : list (client * Request)) : Prop :=
  exists per : list (list (client * Request)),
    placed = concat per
    /\ Forall2 (fun m c =>
                  c = [] \/ exists cl, pool !! Name m = Some cl /\ c = [(cl, req)])
         ms per.

(** The same for one call toward [nodeId]. *)
Definition one_call (pool : gmap string client) (req : Request)
    (nodeId : string) (placed : list (client * Request)) : Prop :=
  placed = [] \/ exists cl, pool !! nodeId = Some cl /\ placed = [(cl, req)].

(** Runs used to try the statements on. *)
Module Runs.

(** A relays a publish to B, is told B left, then relays an apply to B. *)
Definition churn : list PoolOp :=
  [OpRelayPublishPacket "B" Scenario.m_publish;
   OpRemoveGrpcClient "B";
   OpRelayRaftApply "B" Scenario.m_publish].

Definition after_churn : World :=
  (run_ops Scenario.env_up churn (started 0)).2.

End Runs.

(** ** The redis authentication hook (package [plugin/auth/redis]) *)

Module RedisAuth.

(** The error of a redis reply: none, [redis.Nil] (no such key or field),
    or any other. *)
Inductive RErr :=
| RNoErr
| RNil
| ROther (e : error).

Definition is_other (err : RErr) : bool :=
  match err with ROther _ => true | _ => false end.

(** A call either returns or panics (a nil pointer is dereferenced). *)
Inductive outcome (A : Type) :=
| Returned (a : A)
| Panicked.
Arguments Returned {A} a.
Arguments Panicked {A}.

(** The two fields of [auth.AuthRule] the hook reads. *)
Record AuthRule := { Allow : bool; rule_Password : string }.

Record redisOptions := {
  ro_Addr : string;
  ro_Username : string;
  ro_Password : string;
  ro_DB : Z
}.

Inductive LVal :=
| LStr (s : string)
| LInt (n : Z)
| LErr (e : error).

(** What the hook does to the outside. *)
Inductive REv :=
| EvInfo (msg : string) (kv : list (string * LVal))
| EvError (msg : string) (kv : list (string * LVal))
| EvNewClient (o : redisOptions)
| EvPing
| EvHGet (key field : string)
| EvHGetAll (key : string)
| EvCloseClient.

(** What the hook takes from the other packages: the client and packet of
    the broker, the blacklist, hashing, topic matching and access rules of
    the plugin packages, the constants it compares with, the Go library
    ([strconv.Atoi], [json.Unmarshal], the order in which a [range] visits a
    map) and the answers of the redis server. *)
Record Deps := {
  Client : Type;
  Packet : Type;
  Blacklist : Type;
  HashType : Type;
  Access : Type;
  cl_ID : Client -> string;
  cl_Username : Client -> string;
  pk_Password : Packet -> string;
  zero_Blacklist : Blacklist;
  zero_HashType : HashType;
  CheckBLAuth : Blacklist -> Client -> Packet -> Z * bool;
  CheckBLAcl : Blacklist -> Client -> string -> bool -> Z * bool;
  CompareHash : string -> string -> string -> HashType -> bool;
  MatchTopic : string -> string -> bool;
  CheckAcl : gmap string Access -> bool -> bool;
  to_Access : Z -> Access;
  AuthAnonymous : Z;
  AuthUsername : Z;
  AuthClientID : Z;
  mqtt_OnConnectAuthenticate : Z;
  mqtt_OnACLCheck : Z;
  ErrInvalidConfigType : error;
  Atoi : string -> option Z;
  json_Unmarshal : string -> result AuthRule;
  range_order : gmap string string -> list (string * string);
  redis_Ping : redisOptions -> option error;
  redis_HGet : string -> string -> string * RErr;
  redis_HGetAll : string -> gmap string string * RErr;
  redis_Close : option error
}.

Definition defaultAddr : string := "localhost:6379".
Definition defaultAuthkeyPrefix : string := "comqtt:auth".
Definition defaultAclKeyPrefix : string := "comqtt:acl".

(** [Options]; the embedded [pa.Blacklist] is the field [Blacklist_], the
    pointer [RedisOptions] may be nil. *)
Record Options (D : Deps) := {
  Blacklist_ : Blacklist D;
  RedisOptions : option redisOptions;
  AuthMode : Z;
  AuthKeyPrefix : string;
  AclMode : Z;
  AclKeyPrefix : string;
  PasswordHash : HashType D;
  HashKey : string
}.
Arguments Blacklist_ {D} _.
Arguments RedisOptions {D} _.
Arguments AuthMode {D} _.
Arguments AuthKeyPrefix {D} _.
Arguments AclMode {D} _.
Arguments AclKeyPrefix {D} _.
Arguments PasswordHash {D} _.
Arguments HashKey {D} _.

(** The hook: its configuration and its redis client, both nil until
    [Init]. The client is named by the options it was made with. *)
Record Auth (D : Deps) := {
  config : option (Options D);
  db : option redisOptions
}.
Arguments config {D} _.
Arguments db {D} _.

(** The argument of [Init], of type [any]: nil, an [*Options], or a value
    of some other type. *)
Inductive config_any (D : Deps) :=
| CfgNil
| CfgOptions (o : Options D)
| CfgOther.
Arguments CfgNil {D}.
Arguments CfgOptions {D} o.
Arguments CfgOther {D}.

Definition ID : string := "auth-redis".

(** [bytes.HasPrefix] and [bytes.Contains]. *)
Fixpoint bytes_HasPrefix (s prefix : list Z) : bool :=
  match prefix, s with
  | [], _ => true
  | _ :: _, [] => false
  | p :: prefix', x :: s' => (x =? p) && bytes_HasPrefix s' prefix'
  end.

Fixpoint bytes_Contains (b subslice : list Z) : bool :=
  bytes_HasPrefix b subslice ||
  match b with
  | [] => false
  | _ :: b' => bytes_Contains b' subslice
  end.

Definition Provides (D : Deps) (b : Z) : bool :=
  bytes_Contains [mqtt_OnConnectAuthenticate D; mqtt_OnACLCheck D] [b].

(** The two assignments of [Init] that replace an empty prefix. *)
Definition with_default_prefixes {D : Deps} (o : Options D) : Options D :=
  {| Blacklist_ := Blacklist_ o;
     RedisOptions := RedisOptions o;
     AuthMode := AuthMode o;
     AuthKeyPrefix :=
       if bool_decide (AuthKeyPrefix o = "") then defaultAuthkeyPrefix
       else AuthKeyPrefix o;
     AclMode := AclMode o;
     AclKeyPrefix :=
       if bool_decide (AclKeyPrefix o = "") then defaultAclKeyPrefix
       else AclKeyPrefix o;
     PasswordHash := PasswordHash o;
     HashKey := HashKey o |}.

(** The [Options] literal [Init] builds for a nil config: the default
    address, every other field at its zero value. *)
Definition nil_config_options (D : Deps) : Options D :=
  {| Blacklist_ := zero_Blacklist D;
     RedisOptions :=
       Some {| ro_Addr := defaultAddr; ro_Username := ""; ro_Password := "";
               ro_DB := 0 |};
     AuthMode := 0;
     AuthKeyPrefix := "";
     AclMode := 0;
     AclKeyPrefix := "";
     PasswordHash := zero_HashType D;
     HashKey := "" |}.

(** [Init]: the error returned and the hook afterwards, and what was
    done. *)
Definition Init (D : Deps) (a : Auth D) (cfg : config_any D) :
    outcome (option error * Auth D) * list REv :=
  match cfg with
  | CfgOther => (Returned (Some (ErrInvalidConfigType D), a), [])
  | _ =>
      let given :=
        match cfg with
        | CfgOptions o => o
        | _ => nil_config_options D
        end in
      let o := with_default_prefixes given in
      match RedisOptions o with
      | None => (Panicked, [])
      | Some ro =>
          let a' := {| config := Some o; db := Some ro |} in
          let connecting :=
            [EvInfo "connecting to redis service"
               [("address", LStr (ro_Addr ro)); ("username", LStr (ro_Username ro));
                ("password-len", LInt (Z.of_nat (String.length (ro_Password ro))));
                ("db", LInt (ro_DB ro))];
             EvNewClient ro;
             EvPing] in
          match redis_Ping D ro with
          | Some err =>
              (Returned (Some ("failed to ping service: " +:+ err), a'), connecting)
          | None =>
              (Returned (None, a'),
               connecting ++ [EvInfo "connected to redis service" []])
          end
      end
  end.

Definition Stop (D : Deps) (a : Auth D) : outcome (option error) * list REv :=
  match db a with
  | None => (Panicked, [EvInfo "disconnecting from redis service" []])
  | Some _ =>
      (Returned (redis_Close D),
       [EvInfo "disconnecting from redis service" []; EvCloseClient])
  end.

Definition getAuthKey {D : Deps} (o : Options D) : string := AuthKeyPrefix o.

Definition getAclKey {D : Deps} (o : Options D) (uid : string) : string :=
  AclKeyPrefix o +:+ ":" +:+ uid.

(** The key the rules are looked up under, by mode; [None] when the mode
    is neither by username nor by client id. *)
Definition mode_key (D : Deps) (mode : Z) (cl : Client D) : option string :=
  if mode =? AuthUsername D then Some (cl_Username D cl)
  else if mode =? AuthClientID D then Some (cl_ID D cl)
  else None.

Definition OnConnectAuthenticate (D : Deps) (a : Auth D)
    (cl : Client D) (pk : Packet D) : outcome bool * list REv :=
  match config a with
  | None => (Panicked, [])
  | Some o =>
      if AuthMode o =? AuthAnonymous D then (Returned true, [])
      else
        let '(n, ok) := CheckBLAuth D (Blacklist_ o) cl pk in
        if 0 <=? n then (Returned ok, [])
        else
          match mode_key D (AuthMode o) cl with
          | None => (Returned false, [])
          | Some key =>
              match db a with
              | None => (Panicked, [])
              | Some _ =>
                  let '(res, err) := redis_HGet D (getAuthKey o) key in
                  let q := EvHGet (getAuthKey o) key in
                  if is_other err || bool_decide (res = "")
                  then (Returned false, [q])
                  else
                    match json_Unmarshal D res with
                    | Failure e =>
                        (Returned false,
                         [q; EvError "failed to unmarshal redis auth data"
                               [("error", LErr e); ("data", LStr res)]])
                    | Success ar =>
                        if negb (Allow ar) then (Returned false, [q])
                        else
                          (Returned
                             (CompareHash D (rule_Password ar) (pk_Password D pk)
                                (HashKey o) (PasswordHash o)),
                           [q])
                    end
              end
          end
  end.

(** The body of the loop over the reply of [HGetAll]. *)
Definition acl_entry (D : Deps) (topic : string)
    (fam : gmap string (Access D)) (entry : string * string) :
    gmap string (Access D) :=
  let '(filter, rw) := entry in
  if negb (MatchTopic D filter topic) then fam
  else
    match Atoi D rw with
    | None => fam
    | Some access => <[filter := to_Access D access]> fam
    end.

Definition acl_loop (D : Deps) (topic : string) (entries : list (string * string)) :
    gmap string (Access D) :=
  foldl (acl_entry D topic) ∅ entries.

Definition OnACLCheck (D : Deps) (a : Auth D)
    (cl : Client D) (topic : string) (write : bool) : outcome bool * list REv :=
  match config a with
  | None => (Panicked, [])
  | Some o =>
      if AclMode o =? AuthAnonymous D then (Returned true, [])
      else
        let '(n, ok) := CheckBLAcl D (Blacklist_ o) cl topic write in
        if 0 <=? n then (Returned ok, [])
        else
          match mode_key D (AclMode o) cl with
          | None => (Returned false, [])
          | Some key =>
              match db a with
              | None => (Panicked, [])
              | Some _ =>
                  let '(res, err) := redis_HGetAll D (getAclKey o key) in
                  let q := EvHGetAll (getAclKey o key) in
                  if is_other err then (Returned false, [q])
                  else
                    (Returned
                       (CheckAcl D (acl_loop D topic (range_order D res)) write),
                     [q])
              end
          end
  end.

(** What one filter of the reply contributes to the access map. *)
Definition acl_of (D : Deps) (topic filter rw : string) : option (Access D) :=
  if MatchTopic D filter topic then to_Access D <$> Atoi D rw else None.

(** A hook to try the statements on: clients and packets are strings,
    nobody is blacklisted, the stored password is compared as it is. *)
Definition demo : Deps :=
  {| Client := string * string;
     Packet := string;
     Blacklist := unit;
     HashType := unit;
     Access := Z;
     cl_ID := snd;
     cl_Username := fst;
     pk_Password := id;
     zero_Blacklist := tt;
     zero_HashType := tt;
     CheckBLAuth := fun _ _ _ => (-1, false);
     CheckBLAcl := fun _ _ _ _ => (-1, false);
     CompareHash := fun stored given _ _ => bool_decide (stored = given);
     MatchTopic := fun filter topic => bool_decide (filter = topic);
     CheckAcl := fun fam write => bool_decide (fam ≠ ∅);
     to_Access := uint8;
     AuthAnonymous := 0;
     AuthUsername := 1;
     AuthClientID := 2;
     mqtt_OnConnectAuthenticate := 5;
     mqtt_OnACLCheck := 6;
     ErrInvalidConfigType := "invalid config type provided";
     Atoi := fun s => if bool_decide (s = "3") then Some 3 else None;
     json_Unmarshal :=
       fun s => if bool_decide (s = "{}") then Failure "bad rule"
                else Success {| Allow := true; rule_Password := s |};
     range_order := map_to_list;
     redis_Ping := fun _ => None;
     redis_HGet :=
       fun key field =>
         if bool_decide (field = "alice") then ("secret", RNoErr) else ("", RNil);
     redis_HGetAll :=
       fun key =>
         if bool_decide (key = "comqtt:acl:alice")
         then ({["a/b" := "3"; "c/d" := "x"]}, RNoErr) else (∅, RNoErr);
     redis_Close := None |}.

Definition fresh_hook (D : Deps) : Auth D := {| config := None; db := None |}.

Definition demo_options : Options demo :=
  Build_Options demo tt
    (Some {| ro_Addr := "redis:6379"; ro_Username := ""; ro_Password := "pw";
             ro_DB := 0 |})
    1 "" 1 "acl" tt "".

Definition demo_hook : Auth demo :=
  {| config := Some (with_default_prefixes demo_options);
     db := RedisOptions demo_options |}.

End RedisAuth.

(** ** Basic facts *)

Lemma uint8_mod (x : Z) : uint8 x = x mod 256.
Proof. reflexivity. Qed.

Lemma uint8_uint32 (x : Z) : is_uint8 x -> uint8 (uint32 x) = x.
Proof.
  unfold is_uint8, uint8, uint32. intros Hx.
  rewrite (Z.mod_small x (2 ^ 32)) by lia.
  apply Z.mod_small; lia.
Qed.

Lemma uint8_add_mul (x k : Z) : uint8 (x + 256 * k) = uint8 x.
Proof.
  unfold uint8. change (2 ^ 8) with 256.
  rewrite Z.mul_comm. apply Z_mod_plus_full.
Qed.

Lemma effects_app {A : Type} (c : M A) (w : World) (evs : list Event) :
  trace (c w).2 = trace w ++ evs -> effects c w = evs.
Proof. unfold effects. intros ->. by rewrite drop_app_length. Qed.

Lemma serve_spec (K : Consts) (r : Request) (w : World) :
  serve K r w =
    (({| Ok := true |}, None),
     {| cs := cs w; clock := clock w;
        trace := trace w ++ [EvChanSend (serve_msg K r)] |}).
Proof. by destruct r. Qed.

(** ** The inbound handlers *)

Lemma chan_make_wf (n : nat) : chan_wf (chan_make n).
Proof. split; cbn; [lia|done]. Qed.








Lemma serve_rpc_unfold (K : Consts) (r : Request) :
  serve_rpc K r = send_then_reply (serve_msg K r) ({| Ok := true |}, None).
Proof. by destruct r. Qed.

(** Once the send has gone through, the handler does what [serve] says. *)
Lemma serve_rpc_replied (K : Consts) (r : Request) (router : list bool)
    (ch ch' : Chan) (w : World) :
  await_send router ch (serve_msg K r) = Some ch' ->
  serve_rpc K r router ch w =
    Replied (serve K r w).1.1 (serve K r w).1.2 ch' (serve K r w).2.
Proof.
  intros Hsent. rewrite serve_rpc_unfold, serve_spec.
  unfold send_then_reply. by rewrite Hsent.
Qed.




(** C10: the handlers narrow the 32-bit wire fields to 8 bits. The message
    [PublishPacket] delivers has [req.ProtocolVersion mod 256] as its
    protocol version, the one [RaftApply] delivers has [req.Action mod 256]
    as its [Type]; adding a multiple of 256 to the field changes nothing of
    what the handler does. *)
Theorem handlers_narrow_mod_256 (K : Consts) :
  (forall req w,
      sends (effects (PublishPacket K req) w) = [PublishPacket_msg K req]
      /\ ProtocolVersion (PublishPacket_msg K req) = pub_ProtocolVersion req mod 256)
  /\ (forall req w,
      sends (effects (RaftApply req) w) = [RaftApply_msg req]
      /\ Type_ (RaftApply_msg req) = app_Action req mod 256)
  /\ (forall nodeId clientId payload v k w,
      PublishPacket K
        {| pub_NodeId := nodeId; pub_ClientId := clientId;
           pub_ProtocolVersion := v + 256 * k; pub_Payload := payload |} w =
      PublishPacket K
        {| pub_NodeId := nodeId; pub_ClientId := clientId;
           pub_ProtocolVersion := v; pub_Payload := payload |} w)
  /\ (forall nodeId filter v k w,
      RaftApply
        {| app_Action := v + 256 * k; app_NodeId := nodeId; app_Filter := filter |} w =
      RaftApply
        {| app_Action := v; app_NodeId := nodeId; app_Filter := filter |} w).
Proof.
  repeat split.
  - by erewrite effects_app by reflexivity.
  - by erewrite effects_app by reflexivity.
  - intros. unfold PublishPacket, PublishPacket_msg; simpl.
    by rewrite uint8_add_mul.
  - intros. unfold RaftApply, RaftApply_msg; simpl.
    by rewrite uint8_add_mul.
Qed.

(** C2, as the code has it: for [PublishPacket], [ConnectNotify] and
    [RaftJoin] the [Type] of the delivered message is the same for any two
    requests; for [RaftApply] it is the request's [Action] modulo 256, so
    two apply requests deliver the same [Type] exactly when their actions
    agree modulo 256. *)
Theorem kind_from_method_except_apply (K : Consts) (r1 r2 : Request) :
  method r1 = method r2 ->
  (method r1 <> MRaftApply -> Type_ (serve_msg K r1) = Type_ (serve_msg K r2))
  /\ (forall a1 a2, r1 = ReqRaftApply a1 -> r2 = ReqRaftApply a2 ->
        Type_ (serve_msg K r1) = app_Action a1 mod 256
        /\ (Type_ (serve_msg K r1) = Type_ (serve_msg K r2) <->
            app_Action a1 mod 256 = app_Action a2 mod 256)).
Proof.
  intros Hm. split.
  - intros Hne. destruct r1, r2; simpl in *; congruence.
  - intros a1 a2 -> ->. simpl. by rewrite !uint8_mod.
Qed.

Lemma kind_from_method_except_apply_witness :
  method (ReqRaftJoin {| join_NodeId := "D"; join_Addr := "10.0.0.4"; join_Port := 8946 |})
  = method (ReqRaftJoin {| join_NodeId := "E"; join_Addr := "::1"; join_Port := 1 |})
  /\ Type_ (serve_msg Scenario.K0
       (ReqRaftJoin {| join_NodeId := "D"; join_Addr := "10.0.0.4"; join_Port := 8946 |}))
     = Type_ (serve_msg Scenario.K0
       (ReqRaftJoin {| join_NodeId := "E"; join_Addr := "::1"; join_Port := 1 |})).
Proof.
  split; [reflexivity|].
  apply (kind_from_method_except_apply Scenario.K0); [reflexivity|discriminate].
Defined.

(** C2 as stated fails: two [RaftApply] requests that differ in [Action]
    only go to the same handler and deliver messages of different
    [Type]. *)
Lemma kind_from_method_counterexample :
  method (ReqRaftApply (Scenario.apply_req 1)) = method (ReqRaftApply (Scenario.apply_req 2))
  /\ sends (effects (RaftApply (Scenario.apply_req 1)) Scenario.w0)
     = [{| Type_ := 1; NodeID := "A"; ClientID := ""; ProtocolVersion := 0; Payload := [] |}]
  /\ sends (effects (RaftApply (Scenario.apply_req 2)) Scenario.w0)
     = [{| Type_ := 2; NodeID := "A"; ClientID := ""; ProtocolVersion := 0; Payload := [] |}]
  /\ Type_ (serve_msg Scenario.K0 (ReqRaftApply (Scenario.apply_req 1)))
     <> Type_ (serve_msg Scenario.K0 (ReqRaftApply (Scenario.apply_req 2))).
Proof. repeat split. discriminate. Qed.

(** ** The pool *)

Ltac run := cbv [mbind M_bind mret M_ret tick emit get_cs put_cs log_Error]; cbn.

Lemma getClient_spec (env : Env) (nodeId : string) (w : World) :
  getClient_outcome env nodeId w
    (getClient env nodeId w).1 (getClient env nodeId w).2.
Proof.
  unfold getClient, getNodeAddr. run.
  destruct (cs w !! nodeId) as [sc|] eqn:Hc; cbn.
  { destruct w; by constructor. }
  destruct (getNodeMember env (clock w) nodeId) as [m|] eqn:Hm; cbn;
    [|by constructor].
  case_bool_decide as Ha; cbn; [by econstructor|].
  destruct (grpc_DialContext env (S (clock w)) (getGrpcAddr env m)) eqn:Hd; cbn;
    by econstructor.
Qed.

Lemma pool_step_trace (w w' : World) :
  pool_step w w' -> exists evs, trace w' = trace w ++ evs.
Proof.
  destruct 1; cbn;
    [exists []; by rewrite app_nil_r | by eexists | exists []; by rewrite app_nil_r].
Qed.

Lemma grows_trace (w w' : World) :
  rtc pool_step w w' -> exists evs, trace w' = trace w ++ evs.
Proof.
  induction 1 as [w|w w1 w2 Hs _ [evs2 IH]].
  - exists []. by rewrite app_nil_r.
  - destruct (pool_step_trace _ _ Hs) as [evs1 H1].
    exists (evs1 ++ evs2). by rewrite IH, H1, app_assoc.
Qed.

Lemma pool_step_clock (w w' : World) :
  pool_step w w' -> (clock w <= clock w')%nat.
Proof. destruct 1; cbn; lia. Qed.

Lemma grows_clock (w w' : World) :
  rtc pool_step w w' -> (clock w <= clock w')%nat.
Proof.
  induction 1 as [|w w1 w2 Hs _ IH]; [lia|].
  apply pool_step_clock in Hs. lia.
Qed.

Lemma pool_step_keeps (w w' : World) (nodeId : string) (c : client) :
  pool_step w w' -> cs w !! nodeId = Some c -> cs w' !! nodeId = Some c.
Proof.
  destruct 1 as [| |w n t Hfree Ht]; cbn; try done.
  intros Hc. rewrite lookup_insert_ne; [done|congruence].
Qed.

Lemma grows_keeps (w w' : World) (nodeId : string) (c : client) :
  rtc pool_step w w' -> cs w !! nodeId = Some c -> cs w' !! nodeId = Some c.
Proof. induction 1; eauto using pool_step_keeps. Qed.

Lemma pool_step_wf (w w' : World) :
  pool_step w w' -> pool_wf w -> pool_wf w'.
Proof.
  destruct 1 as [| |w n t Hfree Ht]; unfold pool_wf; cbn; intros Hwf k c.
  - intros Hk. apply Hwf in Hk. lia.
  - apply Hwf.
  - rewrite lookup_insert. case_decide; [|apply Hwf].
    intros [= <-]. done.
Qed.

Lemma grows_wf (w w' : World) :
  rtc pool_step w w' -> pool_wf w -> pool_wf w'.
Proof. induction 1; eauto using pool_step_wf. Qed.

Lemma growing_ret {A : Type} (a : A) : growing (mret a).
Proof. intros w. apply rtc_refl. Qed.

Lemma growing_bind {A B : Type} (m : M A) (k : A -> M B) :
  growing m -> (forall a, growing (k a)) -> growing (m ≫= k).
Proof.
  intros Hm Hk w. cbv [mbind M_bind].
  specialize (Hm w). destruct (m w) as [a w1]. cbn in Hm.
  etrans; [exact Hm|apply Hk].
Qed.

Lemma growing_tick : growing tick.
Proof. intros w. apply rtc_once, ps_tick. Qed.

Lemma growing_emit (e : Event) : growing (emit e).
Proof. intros w. apply rtc_once, ps_emit. Qed.

Lemma growing_getClient (env : Env) (nodeId : string) :
  growing (getClient env nodeId).
Proof.
  intros w. destruct (getClient_spec env nodeId w).
  - apply rtc_refl.
  - apply rtc_once, ps_tick.
  - apply rtc_once, ps_tick.
  - eapply rtc_l; [apply ps_tick|]. eapply rtc_l; [apply ps_tick|].
    apply rtc_once. apply (ps_emit (Build_World _ _ _)).
  - eapply rtc_l; [apply ps_tick|]. eapply rtc_l; [apply ps_tick|].
    eapply rtc_l; [apply (ps_emit (Build_World _ _ _))|].
    apply rtc_once.
    apply (ps_install (Build_World _ _ _) nodeId (S (clock w))); cbn; [done|lia].
Qed.

Ltac grow :=
  repeat first
    [ apply growing_ret | apply growing_tick | apply growing_emit
    | apply growing_getClient
    | apply growing_bind; [|intros ?]
    | match goal with
      | |- growing (match ?x with _ => _ end) => destruct x
      | |- growing (if ?b then _ else _) => destruct b
      end ].

Lemma growing_invoke (env : Env) (cl : client) (t : Z) (r : Request) :
  growing (invoke env cl t r).
Proof. unfold invoke. grow. Qed.

Lemma growing_RelayPublishPacket (env : Env) (nodeId : string) (msg : Message) :
  growing (RelayPublishPacket env nodeId msg).
Proof. unfold RelayPublishPacket, invoke, log_Error. grow. Qed.

Lemma growing_ConnectNotifyToNode (env : Env) (nodeId clientId : string) :
  growing (ConnectNotifyToNode env nodeId clientId).
Proof. unfold ConnectNotifyToNode, invoke, log_Error. grow. Qed.

Lemma growing_RelayRaftApply (env : Env) (nodeId : string) (msg : Message) :
  growing (RelayRaftApply env nodeId msg).
Proof. unfold RelayRaftApply, invoke, log_Error. grow. Qed.

Lemma growing_RelayRaftJoin (env : Env) (nodeId : string) :
  growing (RelayRaftJoin env nodeId).
Proof. unfold RelayRaftJoin, invoke, log_Error. grow. Qed.

Lemma growing_range_members (ms : list Member) (body : Member -> M unit) :
  (forall m, growing (body m)) -> growing (range_members ms body).
Proof.
  intros Hb. induction ms as [|m ms IH]; cbn; [apply growing_ret|].
  apply growing_bind; [apply Hb|intros _; apply IH].
Qed.

Lemma growing_others_body (env : Env) (call : string -> M unit) (m : Member) :
  (forall n, growing (call n)) -> growing (others_body env call m).
Proof. intros Hc. unfold others_body. case_bool_decide; [apply growing_ret|apply Hc]. Qed.

Lemma growing_ConnectNotifyToOthers (env : Env) (msg : Message) :
  growing (ConnectNotifyToOthers env msg).
Proof.
  unfold ConnectNotifyToOthers. apply growing_bind; [apply growing_tick|intros t].
  apply growing_range_members; intros m. apply growing_others_body; intros n.
  apply growing_ConnectNotifyToNode.
Qed.

Lemma growing_RaftApplyToOthers (env : Env) (msg : Message) :
  growing (RaftApplyToOthers env msg).
Proof.
  unfold RaftApplyToOthers. apply growing_bind; [apply growing_tick|intros t].
  apply growing_range_members; intros m. apply growing_others_body; intros n.
  apply growing_RelayRaftApply.
Qed.

Lemma growing_RaftJoinToOthers (env : Env) : growing (RaftJoinToOthers env).
Proof.
  unfold RaftJoinToOthers. apply growing_bind; [apply growing_tick|intros t].
  apply growing_range_members; intros m. apply growing_others_body; intros n.
  apply growing_RelayRaftJoin.
Qed.

Lemma RemoveGrpcClient_absent (nodeId : string) (w : World) :
  cs w !! nodeId = None -> RemoveGrpcClient nodeId w = (tt, w).
Proof. unfold RemoveGrpcClient. run. by intros ->. Qed.

Lemma RemoveGrpcClient_present (nodeId : string) (w : World) (c : client) :
  cs w !! nodeId = Some c ->
  RemoveGrpcClient nodeId w =
    (tt, {| cs := delete nodeId (cs w); clock := clock w;
            trace := trace w ++ [EvClose (conn c)] |}).
Proof. unfold RemoveGrpcClient. run. by intros ->. Qed.

Lemma RemoveGrpcClient_wf (nodeId : string) (w : World) :
  pool_wf w -> pool_wf (RemoveGrpcClient nodeId w).2.
Proof.
  intros Hwf. destruct (cs w !! nodeId) as [c|] eqn:Hc.
  - rewrite (RemoveGrpcClient_present _ _ _ Hc). intros k c'. cbn.
    rewrite lookup_delete. case_decide; [done|apply Hwf].
  - by rewrite (RemoveGrpcClient_absent _ _ Hc).
Qed.

Lemma RemoveGrpcClient_keeps (n nodeId : string) (w : World) (c : client) :
  n <> nodeId ->
  cs w !! nodeId = Some c -> cs (RemoveGrpcClient n w).2 !! nodeId = Some c.
Proof.
  intros Hne Hc. destruct (cs w !! n) as [c'|] eqn:Hn.
  - rewrite (RemoveGrpcClient_present _ _ _ Hn). cbn.
    by rewrite lookup_delete_ne.
  - by rewrite (RemoveGrpcClient_absent _ _ Hn).
Qed.

Lemma growing_run_op (env : Env) (op : PoolOp) :
  (forall n, op <> OpRemoveGrpcClient n) -> growing (run_op env op).
Proof.
  destruct op; cbn [run_op]; intros Hop;
    eauto using growing_RelayPublishPacket, growing_ConnectNotifyToNode,
      growing_ConnectNotifyToOthers, growing_RelayRaftApply,
      growing_RaftApplyToOthers, growing_RelayRaftJoin, growing_RaftJoinToOthers.
  - grow.
  - by destruct (Hop nodeId).
Qed.

Lemma run_op_keeps (env : Env) (op : PoolOp) (nodeId : string) (w : World) (c : client) :
  removes nodeId op = false ->
  cs w !! nodeId = Some c -> cs (run_op env op w).2 !! nodeId = Some c.
Proof.
  intros Hr Hc.
  destruct op as [| n | | | | | | |];
    try (eapply grows_keeps; [|exact Hc]; by apply growing_run_op).
  cbn in Hr. apply bool_decide_eq_false in Hr.
  by apply RemoveGrpcClient_keeps.
Qed.

Lemma run_op_wf (env : Env) (op : PoolOp) (w : World) :
  pool_wf w -> pool_wf (run_op env op w).2.
Proof.
  intros Hwf.
  destruct op as [| n | | | | | | |];
    try (eapply grows_wf; [|exact Hwf]; by apply growing_run_op).
  by apply RemoveGrpcClient_wf.
Qed.

Lemma run_ops_keeps (env : Env) (ops : list PoolOp) (nodeId : string) (w : World) (c : client) :
  Forall (fun op => removes nodeId op = false) ops ->
  cs w !! nodeId = Some c -> cs (run_ops env ops w).2 !! nodeId = Some c.
Proof.
  intros Hops. revert w. induction Hops as [|op ops Hop _ IH]; intros w Hc; [done|].
  cbn [run_ops]. cbv [mbind M_bind].
  pose proof (run_op_keeps env op nodeId w c Hop Hc) as H1.
  destruct (run_op env op w) as [[] w1]. by apply IH.
Qed.

Lemma run_ops_wf (env : Env) (ops : list PoolOp) (w : World) :
  pool_wf w -> pool_wf (run_ops env ops w).2.
Proof.
  revert w. induction ops as [|op ops IH]; intros w Hwf; [done|].
  cbn [run_ops]. cbv [mbind M_bind].
  pose proof (run_op_wf env op w Hwf) as H1.
  destruct (run_op env op w) as [[] w1]. by apply IH.
Qed.

Lemma NewClientManager_wf (w : World) : pool_wf (NewClientManager w).2.
Proof. intros k c. cbn. by rewrite lookup_empty. Qed.

Lemma getClient_cached (env : Env) (nodeId : string) (w : World) (c : client) :
  cs w !! nodeId = Some c -> getClient env nodeId w = (Success c, w).
Proof. unfold getClient. run. by intros ->. Qed.

Lemma getClient_success_cached (env : Env) (nodeId : string) (w : World) (c : client) :
  (getClient env nodeId w).1 = Success c ->
  cs (getClient env nodeId w).2 !! nodeId = Some c.
Proof.
  destruct (getClient_spec env nodeId w); intros [= <-]; cbn; try done.
  by rewrite lookup_insert_eq.
Qed.

Lemma dialing_failed_not_nnf (e : error) : dialing_failed e <> "node not found".
Proof. discriminate. Qed.

(** C4: once [getClient nodeId] has returned a client, every later
    [getClient nodeId] returns that same client, without touching the
    state, whatever calls are made in between as long as none is
    [RemoveGrpcClient nodeId]. [RemoveGrpcClient nodeId] then closes that
    client's connection and drops the entry; the next [getClient nodeId]
    cannot return the old client: when it succeeds its client was dialed
    during that very call, at an instant later than any client ever held by
    the pool. A second [RemoveGrpcClient nodeId], and any remove of an
    absent id, changes nothing. *)
Theorem pool_get_stable_until_remove
  (env : Env) (nodeId : string) (w : World) (c : client) :
  pool_wf w ->
  (getClient env nodeId w).1 = Success c ->
  let w1 := (getClient env nodeId w).2 in
  (forall ops,
      Forall (fun op => removes nodeId op = false) ops ->
      let w2 := (run_ops env ops w1).2 in
      getClient env nodeId w2 = (Success c, w2))
  /\ (let w3 := (RemoveGrpcClient nodeId w1).2 in
      effects (RemoveGrpcClient nodeId) w1 = [EvClose (conn c)]
      /\ cs w3 = delete nodeId (cs w1)
      /\ RemoveGrpcClient nodeId w3 = (tt, w3)
      /\ (forall c',
            (getClient env nodeId w3).1 = Success c' ->
            c' <> c
            /\ (forall k c0, cs w3 !! k = Some c0 -> (conn c0 < conn c')%nat)
            /\ conn c' = S (clock w3)
            /\ exists addr,
                effects (getClient env nodeId) w3 =
                  [EvDial addr (3 * ReqTimeout) (conn c')])
      /\ (forall m,
            getNodeMember env (clock w3) nodeId = Some m ->
            getGrpcAddr env m <> "" ->
            grpc_DialContext env (S (clock w3)) (getGrpcAddr env m) = None ->
            (getClient env nodeId w3).1 = Success {| conn := S (clock w3) |}))
  /\ (forall n w', cs w' !! n = None -> RemoveGrpcClient n w' = (tt, w')).
Proof.
  intros Hwf Hget w1.
  assert (Hc1 : cs w1 !! nodeId = Some c) by by apply getClient_success_cached.
  assert (Hwf1 : pool_wf w1) by (eapply grows_wf; [apply growing_getClient|done]).
  split; [|split]; [| |apply RemoveGrpcClient_absent].
  { intros ops Hops w2. apply getClient_cached. by apply run_ops_keeps. }
  intros w3. subst w3. rewrite (RemoveGrpcClient_present _ _ _ Hc1).
  cbn [snd].
  split; [apply effects_app; by rewrite (RemoveGrpcClient_present _ _ _ Hc1)|].
  split; [done|].
  split; [apply RemoveGrpcClient_absent; cbn; by rewrite lookup_delete_eq|].
  set (w3 := Build_World _ _ _).
  assert (Hfree : cs w3 !! nodeId = None) by (cbn; by rewrite lookup_delete_eq).
  assert (Hwf3 : pool_wf w3).
  { intros k c0. cbn. rewrite lookup_delete. case_decide; [done|apply Hwf1]. }
  split.
  - intros c'. unfold effects.
    destruct (getClient_spec env nodeId w3) as [sc Hsc| | | |m];
      intros [= <-]; [congruence|].
    cbn [conn]. split; [|split; [|split]].
    + intros Heq. apply Hwf1 in Hc1. rewrite <- Heq in Hc1. cbn in Hc1. lia.
    + intros k c0 Hk. apply Hwf3 in Hk. cbn in Hk. lia.
    + done.
    + eexists. cbn [trace]. by rewrite drop_app_length.
  - intros m Hm Ha Hd.
    destruct (getClient_spec env nodeId w3); congruence.
Qed.


Lemma pool_get_stable_until_remove_witness :
  pool_wf Scenario.w0
  /\ (getClient Scenario.env_up "B" Scenario.w0).1 = Success {| conn := 1 |}
  /\ (let w1 := (getClient Scenario.env_up "B" Scenario.w0).2 in
      let w2 := (run_ops Scenario.env_up
                   [OpGetClient "C"; OpRemoveGrpcClient "C";
                    OpRelayPublishPacket "B" Scenario.m_publish] w1).2 in
      getClient Scenario.env_up "B" w2 = (Success {| conn := 1 |}, w2)).
Proof.
  assert (Hwf : pool_wf Scenario.w0).
  { intros k c. cbn. rewrite lookup_empty. discriminate. }
  assert (Hget : (getClient Scenario.env_up "B" Scenario.w0).1
                 = Success {| conn := 1 |}) by reflexivity.
  split; [exact Hwf|]. split; [exact Hget|].
  apply (proj1 (pool_get_stable_until_remove
                  Scenario.env_up "B" Scenario.w0 {| conn := 1 |} Hwf Hget)).
  repeat constructor.
Defined.

(** C5, as the code has it: when no client for [nodeId] is cached,
    [getClient nodeId] fails with "node not found" exactly when the
    directory has no record for [nodeId] or the record's address is the
    empty string. Whenever it fails, with that error or with a dial
    failure, the map is as before and still has no entry for [nodeId], so
    the next [getClient nodeId] asks the directory again and, when the
    record has an address, dials again. *)
Theorem pool_get_not_found_when_uncached
  (env : Env) (nodeId : string) (w : World) :
  cs w !! nodeId = None ->
  let w' := (getClient env nodeId w).2 in
  ((getClient env nodeId w).1 = Failure (errors_New "node not found") <->
     getNodeMember env (clock w) nodeId = None
     \/ exists m, getNodeMember env (clock w) nodeId = Some m
                  /\ getGrpcAddr env m = "")
  /\ (forall e,
        (getClient env nodeId w).1 = Failure e ->
        cs w' = cs w
        /\ cs w' !! nodeId = None
        /\ (e = errors_New "node not found" \/ exists e0, e = dialing_failed e0)
        /\ ((getClient env nodeId w').1 = Failure (errors_New "node not found") <->
              getNodeMember env (clock w') nodeId = None
              \/ exists m, getNodeMember env (clock w') nodeId = Some m
                           /\ getGrpcAddr env m = "")
        /\ (forall m,
              getNodeMember env (clock w') nodeId = Some m ->
              getGrpcAddr env m <> "" ->
              effects (getClient env nodeId) w' =
                [EvDial (getGrpcAddr env m) (3 * ReqTimeout) (S (clock w'))])).
Proof.
  assert (Hiff : forall w0, cs w0 !! nodeId = None ->
    ((getClient env nodeId w0).1 = Failure (errors_New "node not found") <->
       getNodeMember env (clock w0) nodeId = None
       \/ exists m, getNodeMember env (clock w0) nodeId = Some m
                    /\ getGrpcAddr env m = "")).
  { intros w0 H0. destruct (getClient_spec env nodeId w0) as [| | | |]; split;
      try congruence; eauto; try (intros [?|(? & ? & ?)]; congruence).
    intros He. discriminate He. }
  assert (Hdial : forall w0 m, cs w0 !! nodeId = None ->
    getNodeMember env (clock w0) nodeId = Some m ->
    getGrpcAddr env m <> "" ->
    effects (getClient env nodeId) w0 =
      [EvDial (getGrpcAddr env m) (3 * ReqTimeout) (S (clock w0))]).
  { intros w0 m H0 Hm Ha. unfold effects.
    destruct (getClient_spec env nodeId w0); try congruence;
      assert (m0 = m) as -> by congruence; cbn [trace snd];
      by rewrite drop_app_length. }
  intros Hnone w'. split; [by apply Hiff|].
  intros e He.
  assert (Hcs : cs w' = cs w /\
            (e = errors_New "node not found" \/ exists e0, e = dialing_failed e0)).
  { subst w'. revert He.
    destruct (getClient_spec env nodeId w); intros [= <-]; cbn; eauto. }
  destruct Hcs as [Hcs Herr].
  assert (Hnone' : cs w' !! nodeId = None) by by rewrite Hcs.
  split; [done|]. split; [done|]. split; [done|]. split; [by apply Hiff|].
  intros m Hm Ha. by apply Hdial.
Qed.

Lemma pool_get_not_found_when_uncached_witness :
  cs Scenario.w0 !! "B" = None
  /\ (getClient Scenario.env_down "B" Scenario.w0).1
     = Failure "dialing failed: connection refused"
  /\ cs (getClient Scenario.env_down "B" Scenario.w0).2 = cs Scenario.w0.
Proof.
  assert (Hnone : cs Scenario.w0 !! "B" = None) by reflexivity.
  assert (Hfail : (getClient Scenario.env_down "B" Scenario.w0).1
                  = Failure "dialing failed: connection refused") by reflexivity.
  split; [exact Hnone|]. split; [exact Hfail|].
  exact (proj1 (proj2 (pool_get_not_found_when_uncached
                         Scenario.env_down "B" Scenario.w0 Hnone) _ Hfail)).
Defined.

(** C5 as stated fails: A dials B while the directory knows B; afterwards
    the directory has no record for B, and [getClient "B"] still succeeds,
    with the cached client. *)
Lemma pool_get_not_found_counterexample :
  let w1 := (getClient Scenario.env_churn "B" Scenario.w0).2 in
  getNodeMember Scenario.env_churn (clock w1) "B" = None
  /\ getClient Scenario.env_churn "B" w1 = (Success {| conn := 1 |}, w1)
  /\ (getClient Scenario.env_churn "B" w1).1 <> Failure (errors_New "node not found").
Proof. repeat split. discriminate. Qed.

(** ** The relay calls *)

Lemma growing_effects {A : Type} (c : M A) (w : World) :
  growing c -> trace (c w).2 = trace w ++ effects c w.
Proof.
  intros Hc. destruct (grows_trace _ _ (Hc w)) as [evs Hevs].
  by rewrite (effects_app c w evs Hevs).
Qed.

Lemma effects_bind {A B : Type} (m : M A) (k : A -> M B) (w : World) :
  growing m -> (forall a, growing (k a)) ->
  effects (m ≫= k) w = effects m w ++ effects (k (m w).1) (m w).2.
Proof.
  intros Hm Hk. apply effects_app. cbv [mbind M_bind].
  pose proof (growing_effects m w Hm) as H1.
  pose proof (growing_effects (k (m w).1) (m w).2 (Hk _)) as H2.
  destruct (m w) as [a w1]. cbn in *. by rewrite H2, H1, app_assoc.
Qed.


Lemma calls_app (l1 l2 : list Event) : calls (l1 ++ l2) = calls l1 ++ calls l2.
Proof. apply omap_app. Qed.

Lemma getClient_quiet (env : Env) (nodeId : string) (w : World) :
  reports (effects (getClient env nodeId) w) = []
  /\ calls (effects (getClient env nodeId) w) = [].
Proof.
  unfold effects. destruct (getClient_spec env nodeId w); cbn [trace];
    rewrite ?drop_app_length, ?drop_all; by split.
Qed.

Lemma invoke_effects (env : Env) (cl : client) (t : Z) (r : Request) (w : World) :
  invoke env cl t r w =
    (grpc_Invoke env (clock w) cl r,
     {| cs := cs w; clock := S (clock w); trace := trace w ++ [EvCall cl t r] |}).
Proof. reflexivity. Qed.

Ltac relay_effects :=
  rewrite effects_bind;
    [ f_equal;
      match goal with
      | |- context [(getClient ?env ?n ?w).1] =>
          destruct (getClient env n w).1 as [cl|err]
      end;
      apply effects_app; unfold invoke; run;
      [ match goal with
        | |- context [grpc_Invoke ?env ?t ?cl ?r] =>
            destruct (grpc_Invoke env t cl r)
        end; cbn; rewrite <- ?app_assoc; reflexivity
      | rewrite ?app_nil_r; reflexivity ]
    | apply growing_getClient
    | intros ?; unfold invoke, log_Error; grow ].

Lemma RelayPublishPacket_effects (env : Env) (nodeId : string) (msg : Message) (w : World) :
  effects (RelayPublishPacket env nodeId msg) w =
    effects (getClient env nodeId) w ++
    match (getClient env nodeId w).1 with
    | Failure err => [EvLogError "get grpc client" [("error", VErr err)]]
    | Success cl =>
        let req := ReqPublishPacket (RelayPublishPacket_req msg) in
        EvCall cl ReqTimeout req ::
        match grpc_Invoke env (clock (getClient env nodeId w).2) cl req with
        | Some e =>
            [EvLogError "relay publish packet"
               [("error", VErr e); ("to", VStr nodeId); ("cid", VStr (ClientID msg))]]
        | None => []
        end
    end.
Proof. unfold RelayPublishPacket. relay_effects. Qed.

Lemma ConnectNotifyToNode_effects (env : Env) (nodeId clientId : string) (w : World) :
  effects (ConnectNotifyToNode env nodeId clientId) w =
    effects (getClient env nodeId) w ++
    match (getClient env nodeId w).1 with
    | Failure err => []
    | Success cl =>
        let req := ReqConnectNotify (ConnectNotifyToNode_req env clientId) in
        EvOnConnectPacketLog DirectionOutbound nodeId clientId ::
        EvCall cl ReqTimeout req ::
        match grpc_Invoke env (clock (getClient env nodeId w).2) cl req with
        | Some e =>
            [EvLogError "connection notification"
               [("error", VErr e); ("to", VStr nodeId); ("cid", VStr clientId)]]
        | None => []
        end
    end.
Proof. unfold ConnectNotifyToNode. relay_effects. Qed.

Lemma RelayRaftApply_effects (env : Env) (nodeId : string) (msg : Message) (w : World) :
  effects (RelayRaftApply env nodeId msg) w =
    effects (getClient env nodeId) w ++
    match (getClient env nodeId w).1 with
    | Failure err => [EvLogError "get grpc client" [("error", VErr err)]]
    | Success cl =>
        let req := ReqRaftApply (RelayRaftApply_req msg) in
        EvCall cl (10 * ReqTimeout) req ::
        match grpc_Invoke env (clock (getClient env nodeId w).2) cl req with
        | Some e =>
            [EvOnApplyLog nodeId (NodeID msg) (Type_ msg) (Payload msg)
               "to leader do apply" e]
        | None => []
        end
    end.
Proof. unfold RelayRaftApply. relay_effects. Qed.

Lemma RelayRaftJoin_effects (env : Env) (nodeId : string) (w : World) :
  effects (RelayRaftJoin env nodeId) w =
    effects (getClient env nodeId) w ++
    match (getClient env nodeId w).1 with
    | Failure err => [EvLogError "get grpc client" [("error", VErr err)]]
    | Success cl =>
        let req := ReqRaftJoin (RelayRaftJoin_req env) in
        EvCall cl ReqTimeout req ::
        match grpc_Invoke env (clock (getClient env nodeId w).2) cl req with
        | Some e =>
            [EvOnJoinLog nodeId (BindAddr env +:+ ":" +:+ Itoa (RaftPort env))
               "raft join" e]
        | None => []
        end
    end.
Proof. unfold RelayRaftJoin. relay_effects. Qed.




Lemma RelayPublishPacket_calls (env : Env) (nodeId : string) (msg : Message) (w : World) :
  calls (effects (RelayPublishPacket env nodeId msg) w) =
    match (getClient env nodeId w).1 with
    | Success cl => [(cl, ReqPublishPacket (RelayPublishPacket_req msg))]
    | Failure _ => []
    end.
Proof.
  rewrite RelayPublishPacket_effects, calls_app.
  destruct (getClient_quiet env nodeId w) as [_ ->].
  destruct (getClient env nodeId w).1 as [cl|err]; [|done].
  cbv zeta. by destruct (grpc_Invoke _ _ _ _).
Qed.

Lemma RelayRaftApply_calls (env : Env) (nodeId : string) (msg : Message) (w : World) :
  calls (effects (RelayRaftApply env nodeId msg) w) =
    match (getClient env nodeId w).1 with
    | Success cl => [(cl, ReqRaftApply (RelayRaftApply_req msg))]
    | Failure _ => []
    end.
Proof.
  rewrite RelayRaftApply_effects, calls_app.
  destruct (getClient_quiet env nodeId w) as [_ ->].
  destruct (getClient env nodeId w).1 as [cl|err]; [|done].
  cbv zeta. by destruct (grpc_Invoke _ _ _ _).
Qed.

Lemma serve_sends (K : Consts) (r : Request) (w : World) :
  sends (effects (serve K r) w) = [serve_msg K r].
Proof. erewrite effects_app; [|by rewrite serve_spec]. reflexivity. Qed.

Lemma Message_eq (m m' : Message) :
  Type_ m' = Type_ m -> NodeID m' = NodeID m -> ClientID m' = ClientID m ->
  ProtocolVersion m' = ProtocolVersion m -> Payload m' = Payload m -> m' = m.
Proof. destruct m, m'; cbn; by intros -> -> -> -> ->. Qed.

(** C7: a message that goes out through the request of its kind comes back,
    in the handler of the receiving node, with the fields of its kind
    unchanged. The request [RelayPublishPacket] places for [m] is lifted by
    the [PublishPacket] handler into a message with the [NodeID],
    [ClientID], [ProtocolVersion] and [Payload] of [m] and the kind
    [packets.Publish]: for a publish message that is [m] itself. The request
    [RelayRaftApply] places for [m] is lifted by the [RaftApply] handler
    into a message with the [Type] (the action), the [NodeID] and the
    [Payload] of [m], the client id and the protocol version, which an
    apply message does not have, left at their zero values: for a message
    that has them at zero that is [m] itself. Each call places exactly one
    such request once it has a client. [Type] and [ProtocolVersion] are
    [uint8] fields of [Message]. *)
Theorem relay_roundtrip_fields
  (K : Consts) (env : Env) (nodeId : string) (m : Message) (w ws : World) :
  is_uint8 (Type_ m) ->
  is_uint8 (ProtocolVersion m) ->
  (forall cl r,
      (cl, r) ∈ calls (effects (RelayPublishPacket env nodeId m) w) ->
      exists m',
        sends (effects (serve K r) ws) = [m']
        /\ NodeID m' = NodeID m
        /\ ClientID m' = ClientID m
        /\ ProtocolVersion m' = ProtocolVersion m
        /\ Payload m' = Payload m
        /\ Type_ m' = packets_Publish K
        /\ (Type_ m = packets_Publish K -> m' = m))
  /\ (forall cl r,
      (cl, r) ∈ calls (effects (RelayRaftApply env nodeId m) w) ->
      exists m',
        sends (effects (serve K r) ws) = [m']
        /\ Type_ m' = Type_ m
        /\ NodeID m' = NodeID m
        /\ Payload m' = Payload m
        /\ ClientID m' = ""
        /\ ProtocolVersion m' = 0
        /\ (ClientID m = "" -> ProtocolVersion m = 0 -> m' = m))
  /\ (forall cl,
      (getClient env nodeId w).1 = Success cl ->
      calls (effects (RelayPublishPacket env nodeId m) w)
        = [(cl, ReqPublishPacket (RelayPublishPacket_req m))]
      /\ calls (effects (RelayRaftApply env nodeId m) w)
        = [(cl, ReqRaftApply (RelayRaftApply_req m))]).
Proof.
  intros Htype Hpv. split; [|split].
  - intros cl r. rewrite RelayPublishPacket_calls.
    destruct (getClient env nodeId w).1 as [cl'|err]; [|by intros ?%elem_of_nil].
    intros [= -> ->]%list_elem_of_singleton.
    eexists. split; [apply serve_sends|]. cbn.
    assert (Hpv' : uint8 (uint32 (ProtocolVersion m)) = ProtocolVersion m)
      by by apply uint8_uint32.
    split; [done|]. split; [done|]. split; [done|]. split; [done|].
    split; [done|]. intros Hkind. by apply Message_eq.
  - intros cl r. rewrite RelayRaftApply_calls.
    destruct (getClient env nodeId w).1 as [cl'|err]; [|by intros ?%elem_of_nil].
    intros [= -> ->]%list_elem_of_singleton.
    eexists. split; [apply serve_sends|]. cbn.
    assert (Hty' : uint8 (uint32 (Type_ m)) = Type_ m) by by apply uint8_uint32.
    split; [done|]. split; [done|]. split; [done|]. split; [done|].
    split; [done|]. intros Hcid Hver. by apply Message_eq.
  - intros cl Hget. rewrite RelayPublishPacket_calls, RelayRaftApply_calls, Hget.
    done.
Qed.

Lemma relay_roundtrip_fields_witness :
  is_uint8 (Type_ Scenario.m_publish)
  /\ is_uint8 (ProtocolVersion Scenario.m_publish)
  /\ Type_ Scenario.m_publish = packets_Publish Scenario.K0
  /\ calls (effects (RelayPublishPacket Scenario.env_up "B" Scenario.m_publish)
              Scenario.w0)
     = [({| conn := 1 |},
         ReqPublishPacket (RelayPublishPacket_req Scenario.m_publish))]
  /\ (exists m',
      sends (effects
               (serve Scenario.K0
                  (ReqPublishPacket (RelayPublishPacket_req Scenario.m_publish)))
               Scenario.w0) = [m']
      /\ NodeID m' = "A"
      /\ ClientID m' = "c1"
      /\ ProtocolVersion m' = 5
      /\ Payload m' = [Byte.xde; Byte.xad; Byte.xbe; Byte.xef]
      /\ Type_ m' = 3
      /\ m' = Scenario.m_publish)
  /\ (is_uint8 (Type_ Scenario.m_apply)
      /\ is_uint8 (ProtocolVersion Scenario.m_apply)
      /\ calls (effects (RelayRaftApply Scenario.env_up "B" Scenario.m_apply)
                  Scenario.w0)
         = [({| conn := 1 |}, ReqRaftApply (RelayRaftApply_req Scenario.m_apply))]
      /\ exists m',
          sends (effects
                   (serve Scenario.K0
                      (ReqRaftApply (RelayRaftApply_req Scenario.m_apply)))
                   Scenario.w0) = [m']
          /\ m' = Scenario.m_apply).
Proof.
  assert (Htype : is_uint8 (Type_ Scenario.m_publish)) by (unfold is_uint8; cbn; lia).
  assert (Hpv : is_uint8 (ProtocolVersion Scenario.m_publish))
    by (unfold is_uint8; cbn; lia).
  assert (Hkind : Type_ Scenario.m_publish = packets_Publish Scenario.K0)
    by reflexivity.
  split; [exact Htype|]. split; [exact Hpv|]. split; [exact Hkind|].
  split; [reflexivity|].
  destruct (proj1 (relay_roundtrip_fields Scenario.K0 Scenario.env_up "B"
                     Scenario.m_publish Scenario.w0 Scenario.w0 Htype Hpv)
              {| conn := 1 |}
              (ReqPublishPacket (RelayPublishPacket_req Scenario.m_publish)))
    as (m' & Hs & Hn & Hc & Hv & Hp & Ht & Hm).
  { vm_compute. constructor. }
  split; [exists m'; repeat (split; [assumption|]); by apply Hm|].
  assert (Htype' : is_uint8 (Type_ Scenario.m_apply)) by (unfold is_uint8; cbn; lia).
  assert (Hpv' : is_uint8 (ProtocolVersion Scenario.m_apply))
    by (unfold is_uint8; cbn; lia).
  split; [exact Htype'|]. split; [exact Hpv'|]. split; [reflexivity|].
  destruct (proj1 (proj2 (relay_roundtrip_fields Scenario.K0 Scenario.env_up "B"
                            Scenario.m_apply Scenario.w0 Scenario.w0 Htype' Hpv'))
              {| conn := 1 |}
              (ReqRaftApply (RelayRaftApply_req Scenario.m_apply)))
    as (m2 & Hs2 & _ & _ & _ & _ & _ & Hm2).
  { vm_compute. constructor. }
  exists m2. split; [assumption|]. by apply Hm2.
Defined.

(** ** The broadcasts *)

Lemma range_members_others (env : Env) (call : string -> M unit)
    (ms : list Member) (w : World) :
  range_members ms (others_body env call) w =
    range_members (others env ms) (fun m => call (Name m)) w.
Proof.
  revert w. induction ms as [|m ms IH]; intros w; [done|].
  unfold others in *. rewrite filter_cons. cbn [range_members].
  cbv [mbind M_bind]. unfold others_body at 1.
  destruct (decide (Name m = GetLocalName env)) as [Hself|Hself].
  - rewrite bool_decide_eq_true_2, decide_False by tauto. apply IH.
  - rewrite bool_decide_eq_false_2, decide_True by done. cbn [range_members].
    cbv [mbind M_bind]. destruct (call (Name m) w) as [[] w1]. apply IH.
Qed.

Lemma range_members_calls (call : string -> M unit) (req : Request)
    (ms : list Member) (w : World) :
  (forall n, growing (call n)) ->
  (forall n w' cl,
      cs w' !! n = Some cl ->
      cs (call n w').2 = cs w' /\ calls (effects (call n) w') = [(cl, req)]) ->
  Forall (fun m => is_Some (cs w !! Name m)) ms ->
  calls (effects (range_members ms (fun m => call (Name m))) w)
    = peers_calls (cs w) req ms.
Proof.
  intros Hg Hcall Hms. revert w Hms.
  induction ms as [|m ms IH]; intros w Hms.
  { cbn. unfold effects. cbn. by rewrite drop_all. }
  apply Forall_cons in Hms as [[cl Hcl] Hms].
  destruct (Hcall _ _ _ Hcl) as [Hcs Hcalls].
  cbn [range_members]. rewrite effects_bind; [|apply Hg|].
  - rewrite calls_app, Hcalls, IH by by rewrite Hcs.
    unfold peers_calls. cbn [omap list_omap]. rewrite Hcl, Hcs. reflexivity.
  - intros _. apply growing_range_members. intros m'. apply Hg.
Qed.

Ltac cached_call Hc :=
  cbv [mbind M_bind]; rewrite (getClient_cached _ _ _ _ Hc);
  unfold invoke; run;
  match goal with
  | |- context [grpc_Invoke ?env ?t ?cl ?r] => by destruct (grpc_Invoke env t cl r)
  end.

Lemma ConnectNotifyToNode_cached (env : Env) (nodeId clientId : string)
    (w : World) (cl : client) :
  cs w !! nodeId = Some cl ->
  cs (ConnectNotifyToNode env nodeId clientId w).2 = cs w
  /\ calls (effects (ConnectNotifyToNode env nodeId clientId) w)
     = [(cl, ReqConnectNotify (ConnectNotifyToNode_req env clientId))].
Proof.
  intros Hc. split.
  - unfold ConnectNotifyToNode. cached_call Hc.
  - rewrite ConnectNotifyToNode_effects, calls_app.
    destruct (getClient_quiet env nodeId w) as [_ ->].
    rewrite (getClient_cached _ _ _ _ Hc). cbn.
    by destruct (grpc_Invoke _ _ _ _).
Qed.

Lemma RelayRaftApply_cached (env : Env) (nodeId : string) (msg : Message)
    (w : World) (cl : client) :
  cs w !! nodeId = Some cl ->
  cs (RelayRaftApply env nodeId msg w).2 = cs w
  /\ calls (effects (RelayRaftApply env nodeId msg) w)
     = [(cl, ReqRaftApply (RelayRaftApply_req msg))].
Proof.
  intros Hc. split.
  - unfold RelayRaftApply. cached_call Hc.
  - by rewrite RelayRaftApply_calls, (getClient_cached _ _ _ _ Hc).
Qed.

Lemma RelayRaftJoin_cached (env : Env) (nodeId : string) (w : World) (cl : client) :
  cs w !! nodeId = Some cl ->
  cs (RelayRaftJoin env nodeId w).2 = cs w
  /\ calls (effects (RelayRaftJoin env nodeId) w)
     = [(cl, ReqRaftJoin (RelayRaftJoin_req env))].
Proof.
  intros Hc. split.
  - unfold RelayRaftJoin. cached_call Hc.
  - rewrite RelayRaftJoin_effects, calls_app.
    destruct (getClient_quiet env nodeId w) as [_ ->].
    rewrite (getClient_cached _ _ _ _ Hc). cbn.
    by destruct (grpc_Invoke _ _ _ _).
Qed.

Lemma range_members_app (body : Member -> M unit) (l1 l2 : list Member) (w : World) :
  range_members (l1 ++ l2) body w =
    range_members l2 body (range_members l1 body w).2.
Proof.
  revert w. induction l1 as [|m l1 IH]; intros w; [done|].
  cbn [app range_members]. cbv [mbind M_bind].
  destruct (body m w) as [[] w1]. apply IH.
Qed.

Lemma others_nil (env : Env) (ms : list Member) :
  Forall (fun m => Name m = GetLocalName env) ms -> others env ms = [].
Proof.
  induction 1 as [|m ms Hm _ IH]; [done|].
  unfold others in *. rewrite filter_cons, decide_False by tauto. exact IH.
Qed.

Lemma peers_calls_length (pool : gmap string client) (req : Request) (ms : list Member) :
  Forall (fun m => is_Some (pool !! Name m)) ms ->
  length (peers_calls pool req ms) = length ms.
Proof.
  induction 1 as [|m ms [cl Hcl] _ IH]; [done|].
  unfold peers_calls in *. cbn [omap list_omap]. rewrite Hcl. cbn. by rewrite IH.
Qed.

(** C6: each of the three broadcasts reads the member list once, at the
    instant it is entered, and then does what running the unicast call on
    every entry of that snapshot whose [Name] differs from the local name,
    in snapshot order, does; entries whose [Name] is the local name, and
    only those, are skipped. The entries after a member are visited from
    whatever state the call for that member left, so no outcome of one
    call stops the rest. If every entry is the local node (or there is
    none) the broadcast only reads the list: nothing is dialed, called or
    logged. If the pool already holds a client for every other entry, the
    RPCs placed are one per other entry, in order, whatever the RPCs
    answer. *)
Theorem broadcast_visits_others (env : Env) (msg : Message) (w : World) :
  let snapshot := Members env (clock w) in
  let w1 := {| cs := cs w; clock := S (clock w); trace := trace w |} in
  (ConnectNotifyToOthers env msg w =
     range_members (others env snapshot)
       (fun m => ConnectNotifyToNode env (Name m) (ClientID msg)) w1
   /\ RaftApplyToOthers env msg w =
     range_members (others env snapshot)
       (fun m => RelayRaftApply env (Name m) msg) w1
   /\ RaftJoinToOthers env w =
     range_members (others env snapshot)
       (fun m => RelayRaftJoin env (Name m)) w1)
  /\ (forall m, m ∈ others env snapshot <->
                m ∈ snapshot /\ Name m <> GetLocalName env)
  /\ (forall body l1 m l2 w0,
        range_members (l1 ++ m :: l2) body w0 =
          range_members l2 body (body m (range_members l1 body w0).2).2)
  /\ (Forall (fun m => Name m = GetLocalName env) snapshot ->
      ConnectNotifyToOthers env msg w = (tt, w1)
      /\ RaftApplyToOthers env msg w = (tt, w1)
      /\ RaftJoinToOthers env w = (tt, w1))
  /\ (Forall (fun m => is_Some (cs w !! Name m)) (others env snapshot) ->
      calls (effects (ConnectNotifyToOthers env msg) w)
        = peers_calls (cs w)
            (ReqConnectNotify (ConnectNotifyToNode_req env (ClientID msg)))
            (others env snapshot)
      /\ calls (effects (RaftApplyToOthers env msg) w)
        = peers_calls (cs w) (ReqRaftApply (RelayRaftApply_req msg))
            (others env snapshot)
      /\ calls (effects (RaftJoinToOthers env) w)
        = peers_calls (cs w) (ReqRaftJoin (RelayRaftJoin_req env))
            (others env snapshot)
      /\ forall req,
          length (peers_calls (cs w) req (others env snapshot))
            = length (others env snapshot)).
Proof.
  intros snapshot w1.
  assert (Heq :
    ConnectNotifyToOthers env msg w =
      range_members (others env snapshot)
        (fun m => ConnectNotifyToNode env (Name m) (ClientID msg)) w1
    /\ RaftApplyToOthers env msg w =
      range_members (others env snapshot)
        (fun m => RelayRaftApply env (Name m) msg) w1
    /\ RaftJoinToOthers env w =
      range_members (others env snapshot)
        (fun m => RelayRaftJoin env (Name m)) w1).
  { repeat split;
      [unfold ConnectNotifyToOthers|unfold RaftApplyToOthers|unfold RaftJoinToOthers];
      cbv [mbind M_bind tick]; apply range_members_others. }
  split; [exact Heq|]. destruct Heq as (Hc & Ha & Hj).
  split; [intros m; unfold others; rewrite list_elem_of_filter; tauto|].
  split.
  { intros body l1 m l2 w0. rewrite range_members_app. cbn [range_members].
    cbv [mbind M_bind]. by destruct (body m _) as [[] w2]. }
  split.
  - intros Hself. rewrite Hc, Ha, Hj, (others_nil _ _ Hself). done.
  - intros Hcached. unfold effects. rewrite Hc, Ha, Hj.
    split; [|split; [|split]].
    + apply (range_members_calls
               (fun n => ConnectNotifyToNode env n (ClientID msg)) _ _ w1); [| |done].
      * intros n. apply growing_ConnectNotifyToNode.
      * intros n w' cl. apply ConnectNotifyToNode_cached.
    + apply (range_members_calls (fun n => RelayRaftApply env n msg) _ _ w1); [| |done].
      * intros n. apply growing_RelayRaftApply.
      * intros n w' cl. apply RelayRaftApply_cached.
    + apply (range_members_calls (RelayRaftJoin env) _ _ w1); [| |done].
      * intros n. apply growing_RelayRaftJoin.
      * intros n w' cl. apply RelayRaftJoin_cached.
    + intros req. by apply peers_calls_length.
Qed.

Lemma broadcast_visits_others_witness :
  Forall (fun m => Name m = GetLocalName Scenario.env_alone)
    (Members Scenario.env_alone (clock Scenario.w0))
  /\ ConnectNotifyToOthers Scenario.env_alone Scenario.m_publish Scenario.w0
     = (tt, {| cs := ∅; clock := 1; trace := [] |}).
Proof.
  assert (Hself : Forall (fun m => Name m = GetLocalName Scenario.env_alone)
                    (Members Scenario.env_alone (clock Scenario.w0))).
  { repeat constructor. }
  split; [exact Hself|].
  exact (proj1 (proj1 (proj2 (proj2 (proj2
    (broadcast_visits_others Scenario.env_alone Scenario.m_publish Scenario.w0))))
    Hself)).
Defined.

(** ** Starting and stopping the server *)

(** C9: if [net.Listen] fails, [StartRpcServer] returns that very error and
    has done nothing else: no server created, none registered, no
    goroutine started. If it succeeds, [StartRpcServer] creates the
    server, registers the handlers on it, starts the serving goroutine and
    returns nil; the goroutine returns nothing, and what it does with an
    error from [Serve] is one [log.Error]. *)
Theorem start_returns_listen_error_only (s : RpcService) (w : World) :
  let addr := JoinHostPort (BindAddr (agent s)) (Itoa (GrpcPort (agent s))) in
  (forall err,
      net_Listen (agent s) (clock w) addr = Some err ->
      StartRpcServer s w =
        (Some err, {| cs := cs w; clock := S (clock w); trace := trace w |}))
  /\ (net_Listen (agent s) (clock w) addr = None ->
      StartRpcServer s w =
        (None,
         {| cs := cs w; clock := S (S (clock w));
            trace := trace w ++
              [EvNewServer (S (clock w));
               EvRegisterRelaysServer (S (clock w));
               EvGoServe (S (clock w)) addr] |}))
  /\ (forall srv w',
      serveTask s srv w' =
        (tt,
         {| cs := cs w'; clock := S (clock w');
            trace := trace w' ++
              match grpc_Serve (agent s) (clock w') srv with
              | Some err => [EvLogError "grpc server serve" [("error", VErr err)]]
              | None => []
              end |})).
Proof.
  intros addr. split; [|split].
  - intros err Hl. unfold StartRpcServer. run. fold addr. by rewrite Hl.
  - intros Hl. unfold StartRpcServer. run. fold addr. rewrite Hl. cbn.
    by rewrite <- !app_assoc.
  - intros srv w'. unfold serveTask. run.
    destruct (grpc_Serve (agent s) (clock w') srv); cbn; [done|].
    by rewrite app_nil_r.
Qed.

Lemma start_returns_listen_error_only_witness :
  net_Listen Scenario.env_down 0 "10.0.0.1:17946" = Some "bind: address already in use"
  /\ StartRpcServer (NewRpcService Scenario.env_down) Scenario.w0
     = (Some "bind: address already in use", {| cs := ∅; clock := 1; trace := [] |}).
Proof.
  assert (Hl : net_Listen Scenario.env_down 0 "10.0.0.1:17946"
               = Some "bind: address already in use") by reflexivity.
  split; [exact Hl|].
  exact (proj1 (start_returns_listen_error_only
                  (NewRpcService Scenario.env_down) Scenario.w0) _ Hl).
Defined.

(** C1, what the code does: [StartRpcServer] never stores the server it
    starts in the receiver, so a [StopRpcServer] that follows it finds
    [grpcServer] nil and returns at once. Starting and then stopping never
    calls [GracefulStop]; on node A the server is created, registered and
    serving, and the stop leaves it so. Stop on a fresh service and on a nil
    receiver changes nothing either. *)
Theorem stop_after_start_stops_nothing :
  (forall a w srv,
      EvGracefulStop srv ∉ effects (start_then_stop (NewRpcService a)) w)
  /\ start_then_stop (NewRpcService Scenario.env_up) Scenario.w0
     = (None,
        {| cs := ∅; clock := 2;
           trace := [EvNewServer 1; EvRegisterRelaysServer 1;
                     EvGoServe 1 "10.0.0.1:17946"] |})
  /\ (forall a w, StopRpcServer (Some (NewRpcService a)) w = (tt, w))
  /\ (forall w, StopRpcServer None w = (tt, w)).
Proof.
  split; [|by repeat split].
  intros a w srv. unfold effects, start_then_stop, StartRpcServer. run.
  destruct (net_Listen a (clock w) _); cbn.
  - rewrite drop_all. apply not_elem_of_nil.
  - rewrite <- !app_assoc, drop_app_length. cbn.
    rewrite !not_elem_of_cons. repeat split; try discriminate.
    apply not_elem_of_nil.
Qed.

(** ** The scenarios of the design, run *)

Example scenario_publish_relay :
  calls (effects (RelayPublishPacket Scenario.env_up "B" Scenario.m_publish) Scenario.w0)
    = [({| conn := 1 |}, ReqPublishPacket (RelayPublishPacket_req Scenario.m_publish))]
  /\ serve_msg Scenario.K0 (ReqPublishPacket (RelayPublishPacket_req Scenario.m_publish))
     = Scenario.m_publish.
Proof. by split. Qed.

Example scenario_connect_fan_out :
  calls (effects (ConnectNotifyToOthers Scenario.env_up Scenario.m_publish) Scenario.w0)
    = [({| conn := 2 |}, ReqConnectNotify {| con_NodeId := "A"; con_ClientId := "c1" |});
       ({| conn := 5 |}, ReqConnectNotify {| con_NodeId := "A"; con_ClientId := "c1" |})].
Proof. reflexivity. Qed.

Example scenario_peer_down :
  effects (RaftApplyToOthers Scenario.env_down Scenario.m_publish) Scenario.w0
    = [EvDial "10.0.0.2:17946" (3 * ReqTimeout) 2;
       EvLogError "get grpc client" [("error", VErr "dialing failed: connection refused")];
       EvDial "10.0.0.3:17946" (3 * ReqTimeout) 4;
       EvCall {| conn := 4 |} (10 * ReqTimeout)
         (ReqRaftApply {| app_Action := 3; app_NodeId := "A";
                          app_Filter := [Byte.xde; Byte.xad; Byte.xbe; Byte.xef] |});
       EvOnApplyLog "C" "A" 3 [Byte.xde; Byte.xad; Byte.xbe; Byte.xef]
         "to leader do apply" "unavailable"].
Proof. reflexivity. Qed.

Example scenario_raft_join :
  Payload (RaftJoin_msg Scenario.K0
             {| join_NodeId := "D"; join_Addr := "10.0.0.4"; join_Port := 8946 |})
    = String.list_byte_of_string "10.0.0.4:8946".
Proof. reflexivity. Qed.

(** ** The life of a connection: every call as a walk of [cm_step]s *)

Lemma world_eq (w : World) (m : gmap string client) (n : nat) (tr : list Event) :
  cs w = m -> clock w = n -> trace w = tr ->
  w = {| cs := m; clock := n; trace := tr |}.
Proof. destruct w; cbn; by intros -> -> ->. Qed.

Lemma logs_walk (env : Env) (evs : list Event) (w : World) :
  Forall (fun e => quiet e = true) evs ->
  rtc (cm_step env) w
    {| cs := cs w; clock := clock w; trace := trace w ++ evs |}.
Proof.
  intros Hq. revert w. induction Hq as [|e evs He _ IH]; intros w.
  - rewrite app_nil_r. destruct w. apply rtc_refl.
  - eapply rtc_l; [apply (cm_log env w e He)|].
    specialize (IH {| cs := cs w; clock := clock w; trace := trace w ++ [e] |}).
    cbn in IH. by rewrite <- app_assoc in IH.
Qed.

Lemma walks_ret {A : Type} (env : Env) (a : A) : walks env (mret a).
Proof. intros w. apply rtc_refl. Qed.

Lemma walks_bind {A B : Type} (env : Env) (m : M A) (k : A -> M B) :
  walks env m -> (forall a, walks env (k a)) -> walks env (m ≫= k).
Proof.
  intros Hm Hk w. cbv [mbind M_bind].
  specialize (Hm w). destruct (m w) as [a w1]. cbn in Hm.
  etrans; [exact Hm|apply Hk].
Qed.

Lemma walks_tick (env : Env) : walks env tick.
Proof. intros w. apply rtc_once, cm_tick. Qed.

Lemma walks_getClient (env : Env) (nodeId : string) : walks env (getClient env nodeId).
Proof.
  intros w. destruct (getClient_spec env nodeId w) as [| | |m e Hc Hm Ha Hd|m Hc Hm Ha Hd].
  - apply rtc_refl.
  - apply rtc_once, cm_tick.
  - apply rtc_once, cm_tick.
  - eapply rtc_l; [apply cm_tick|]. apply rtc_once.
    apply (cm_dial_failed env (Build_World _ _ _) _ e). exact Hd.
  - eapply rtc_l; [apply cm_tick|]. apply rtc_once.
    apply (cm_dial env (Build_World _ _ _) nodeId); [exact Hc|exact Hd].
Qed.

Lemma walks_relay_shape (env : Env) (nodeId : string)
    (on_fail : error -> list Event) (pre : list Event)
    (req : Request) (on_err : error -> Event) :
  (forall err, Forall (fun e => quiet e = true) (on_fail err)) ->
  Forall (fun e => quiet e = true) pre ->
  (forall e, quiet (on_err e) = true) ->
  walks env (relay_shape env nodeId on_fail pre (deadline req) req on_err).
Proof.
  intros Hfail Hpre Herr w. unfold relay_shape. cbv zeta.
  pose proof (walks_getClient env nodeId w) as Hget.
  pose proof (getClient_success_cached env nodeId w) as Hin.
  destruct (getClient env nodeId w) as [[cl|err] w1]; cbn [fst snd] in *.
  - specialize (Hin cl eq_refl).
    etrans; [exact Hget|]. etrans; [apply (logs_walk env pre w1 Hpre)|].
    eapply rtc_l; [apply cm_tick|]. cbn [cs clock trace].
    eapply rtc_l; [apply (cm_call env (Build_World _ _ _) nodeId cl req); exact Hin|].
    cbn [cs clock trace].
    destruct (grpc_Invoke env (clock w1) cl req) as [e|].
    + eapply rtc_l; [apply (cm_log env (Build_World _ _ _) (on_err e)); apply Herr|].
      cbn [cs clock trace]. rewrite <- !app_assoc. apply rtc_refl.
    + rewrite <- !app_assoc. apply rtc_refl.
  - etrans; [exact Hget|]. apply logs_walk, Hfail.
Qed.

Lemma RelayPublishPacket_shape (env : Env) (nodeId : string) (msg : Message) (w : World) :
  RelayPublishPacket env nodeId msg w =
    relay_shape env nodeId
      (fun err => [EvLogError "get grpc client" [("error", VErr err)]]) []
      ReqTimeout (ReqPublishPacket (RelayPublishPacket_req msg))
      (fun e => EvLogError "relay publish packet"
                  [("error", VErr e); ("to", VStr nodeId); ("cid", VStr (ClientID msg))])
      w.
Proof.
  unfold RelayPublishPacket, relay_shape, invoke. cbv [mbind M_bind]. cbv zeta.
  destruct (getClient env nodeId w) as [[cl|err] w1]; run; [|done].
  destruct (grpc_Invoke _ _ _ _); cbn; by rewrite <- ?app_assoc.
Qed.

Lemma ConnectNotifyToNode_shape (env : Env) (nodeId clientId : string) (w : World) :
  ConnectNotifyToNode env nodeId clientId w =
    relay_shape env nodeId (fun _ => [])
      [EvOnConnectPacketLog DirectionOutbound nodeId clientId]
      ReqTimeout (ReqConnectNotify (ConnectNotifyToNode_req env clientId))
      (fun e => EvLogError "connection notification"
                  [("error", VErr e); ("to", VStr nodeId); ("cid", VStr clientId)])
      w.
Proof.
  unfold ConnectNotifyToNode, relay_shape, invoke. cbv [mbind M_bind]. cbv zeta.
  destruct (getClient env nodeId w) as [[cl|err] w1]; run.
  - destruct (grpc_Invoke _ _ _ _); cbn; by rewrite <- ?app_assoc.
  - rewrite app_nil_r. by destruct w1.
Qed.

Lemma RelayRaftApply_shape (env : Env) (nodeId : string) (msg : Message) (w : World) :
  RelayRaftApply env nodeId msg w =
    relay_shape env nodeId
      (fun err => [EvLogError "get grpc client" [("error", VErr err)]]) []
      (10 * ReqTimeout) (ReqRaftApply (RelayRaftApply_req msg))
      (fun e => EvOnApplyLog nodeId (NodeID msg) (Type_ msg) (Payload msg)
                  "to leader do apply" e)
      w.
Proof.
  unfold RelayRaftApply, relay_shape, invoke. cbv [mbind M_bind]. cbv zeta.
  destruct (getClient env nodeId w) as [[cl|err] w1]; run; [|done].
  destruct (grpc_Invoke _ _ _ _); cbn; by rewrite <- ?app_assoc.
Qed.

Lemma RelayRaftJoin_shape (env : Env) (nodeId : string) (w : World) :
  RelayRaftJoin env nodeId w =
    relay_shape env nodeId
      (fun err => [EvLogError "get grpc client" [("error", VErr err)]]) []
      ReqTimeout (ReqRaftJoin (RelayRaftJoin_req env))
      (fun e => EvOnJoinLog nodeId (BindAddr env +:+ ":" +:+ Itoa (RaftPort env))
                  "raft join" e)
      w.
Proof.
  unfold RelayRaftJoin, relay_shape, invoke. cbv [mbind M_bind]. cbv zeta.
  destruct (getClient env nodeId w) as [[cl|err] w1]; run; [|done].
  destruct (grpc_Invoke _ _ _ _); cbn; by rewrite <- ?app_assoc.
Qed.

Lemma walks_ext {A : Type} (env : Env) (c c' : M A) :
  (forall w, c w = c' w) -> walks env c' -> walks env c.
Proof. intros Heq Hc w. rewrite Heq. apply Hc. Qed.

Lemma walks_RelayPublishPacket (env : Env) (nodeId : string) (msg : Message) :
  walks env (RelayPublishPacket env nodeId msg).
Proof.
  eapply walks_ext; [apply RelayPublishPacket_shape|].
  apply (walks_relay_shape env nodeId _ _ (ReqPublishPacket _)); intros; repeat constructor.
Qed.

Lemma walks_ConnectNotifyToNode (env : Env) (nodeId clientId : string) :
  walks env (ConnectNotifyToNode env nodeId clientId).
Proof.
  eapply walks_ext; [apply ConnectNotifyToNode_shape|].
  apply (walks_relay_shape env nodeId _ _ (ReqConnectNotify _)); intros; repeat constructor.
Qed.

Lemma walks_RelayRaftApply (env : Env) (nodeId : string) (msg : Message) :
  walks env (RelayRaftApply env nodeId msg).
Proof.
  eapply walks_ext; [apply RelayRaftApply_shape|].
  apply (walks_relay_shape env nodeId _ _ (ReqRaftApply _)); intros; repeat constructor.
Qed.

Lemma walks_RelayRaftJoin (env : Env) (nodeId : string) :
  walks env (RelayRaftJoin env nodeId).
Proof.
  eapply walks_ext; [apply RelayRaftJoin_shape|].
  apply (walks_relay_shape env nodeId _ _ (ReqRaftJoin _)); intros; repeat constructor.
Qed.

Lemma walks_RemoveGrpcClient (env : Env) (nodeId : string) :
  walks env (RemoveGrpcClient nodeId).
Proof.
  intros w. destruct (cs w !! nodeId) as [c|] eqn:Hc.
  - rewrite (RemoveGrpcClient_present _ _ _ Hc). apply rtc_once. by apply cm_remove.
  - rewrite (RemoveGrpcClient_absent _ _ Hc). apply rtc_refl.
Qed.

Lemma walks_range_members (env : Env) (ms : list Member) (body : Member -> M unit) :
  (forall m, walks env (body m)) -> walks env (range_members ms body).
Proof.
  intros Hb. induction ms as [|m ms IH]; cbn; [apply walks_ret|].
  apply walks_bind; [apply Hb|intros _; apply IH].
Qed.

Lemma walks_broadcast (env : Env) (call : string -> M unit) :
  (forall n, walks env (call n)) ->
  walks env (t ← tick; range_members (Members env t) (others_body env call)).
Proof.
  intros Hc. apply walks_bind; [apply walks_tick|intros t].
  apply walks_range_members. intros m. unfold others_body.
  case_bool_decide; [apply walks_ret|apply Hc].
Qed.

Lemma walks_run_op (env : Env) (op : PoolOp) : walks env (run_op env op).
Proof.
  destruct op; cbn [run_op].
  - apply walks_bind; [apply walks_getClient|intros _; apply walks_ret].
  - apply walks_RemoveGrpcClient.
  - apply walks_RelayPublishPacket.
  - apply walks_ConnectNotifyToNode.
  - apply walks_broadcast. intros n. apply walks_ConnectNotifyToNode.
  - apply walks_RelayRaftApply.
  - apply walks_broadcast. intros n. apply walks_RelayRaftApply.
  - apply walks_RelayRaftJoin.
  - apply walks_broadcast. apply walks_RelayRaftJoin.
Qed.

Lemma walks_run_ops (env : Env) (ops : list PoolOp) : walks env (run_ops env ops).
Proof.
  induction ops as [|op ops IH]; cbn [run_ops]; [apply walks_ret|].
  apply walks_bind; [apply walks_run_op|intros _; apply IH].
Qed.

(** ** The life of a connection: the invariant *)

Lemma closes_snoc (tr : list Event) (e : Event) :
  closes (tr ++ [e]) =
    closes tr ++ match e with EvClose t => [t] | _ => [] end.
Proof. unfold closes. rewrite omap_app. by destruct e. Qed.

Lemma closes_snoc_open (tr : list Event) (e : Event) :
  (forall t, e <> EvClose t) -> closes (tr ++ [e]) = closes tr.
Proof.
  intros He. rewrite closes_snoc. destruct e; rewrite ?app_nil_r; try done.
  by destruct (He c).
Qed.

Lemma client_eq (c c' : client) : conn c = conn c' -> c = c'.
Proof. destruct c, c'; cbn; by intros ->. Qed.

Lemma elem_of_closes (tr : list Event) (t : nat) :
  t ∈ closes tr <-> exists i, tr !! i = Some (EvClose t).
Proof.
  unfold closes. rewrite list_elem_of_omap. split.
  - intros (e & He & Hm). destruct e; try discriminate. injection Hm as ->.
    by apply list_elem_of_lookup.
  - intros [i Hi]. exists (EvClose t). split; [|done].
    apply list_elem_of_lookup. by exists i.
Qed.

Lemma pool_inv_tick (env : Env) (w : World) :
  pool_inv env w ->
  pool_inv env {| cs := cs w; clock := S (clock w); trace := trace w |}.
Proof.
  intros [Hold Hinj Hopen Hcold Honce Hdial Hcdial Hleak Hcopen Hcalls].
  constructor; cbn [cs clock trace]; try done.
  - intros k c Hk. apply Hold in Hk. lia.
  - intros t Ht. apply Hcold in Ht. lia.
Qed.

Lemma pool_inv_snoc (env : Env) (w : World) (e : Event) :
  pool_inv env w ->
  (forall t, e <> EvClose t) ->
  (forall addr timeout t,
      e = EvDial addr timeout t ->
      timeout = 3 * ReqTimeout /\ grpc_DialContext env t addr <> None) ->
  (forall cl timeout r,
      e = EvCall cl timeout r ->
      timeout = deadline r /\ exists k, cs w !! k = Some cl) ->
  pool_inv env {| cs := cs w; clock := clock w; trace := trace w ++ [e] |}.
Proof.
  intros [Hold Hinj Hopen Hcold Honce Hdial Hcdial Hleak Hcopen Hcalls]
    Hnc Hnd Hcall.
  constructor; cbn [cs clock trace]; rewrite ?(closes_snoc_open _ _ Hnc);
    try done.
  - intros k c Hk. destruct (Hdial k c Hk) as (i & addr & Hi & Hok).
    exists i, addr. split; [by apply lookup_app_l_Some|done].
  - intros i t [[_ Hi]|[_ ->]]%lookup_snoc_Some; [|by destruct (Hnc t)].
    destruct (Hcdial i t Hi) as (j & addr & Hj & Hjj & Hok).
    exists j, addr. split; [done|]. split; [by apply lookup_app_l_Some|done].
  - intros addr timeout t [Hin|Hin]%elem_of_app Hok; [by eapply Hleak|].
    apply list_elem_of_singleton in Hin.
    destruct (Hnd addr timeout t (eq_sym Hin)) as [_ Hbad]. by destruct Hbad.
  - intros i j cl timeout r Hj [[_ Hi]|[_ He]]%lookup_snoc_Some;
      [|by destruct (Hnc (conn cl))].
    apply lookup_snoc_Some in Hj as [[_ Hj]|[_ He]]; [by eapply Hcopen|].
    destruct (Hcall cl timeout r He) as [_ [k Hk]].
    destruct (Hopen k cl Hk). apply elem_of_closes. by exists i.
  - intros j cl timeout r [[_ Hj]|[-> He]]%lookup_snoc_Some.
    + destruct (Hcalls j cl timeout r Hj) as [Ht (i & addr & Hi & Hii & Hok)].
      split; [done|]. exists i, addr.
      split; [done|]. split; [by apply lookup_app_l_Some|done].
    + destruct (Hcall cl timeout r He) as [Ht [k Hk]]. split; [done|].
      destruct (Hdial k cl Hk) as (i & addr & Hi & Hok). exists i, addr.
      split; [by eapply lookup_lt_Some|]. split; [by apply lookup_app_l_Some|done].
Qed.

Lemma pool_inv_dial (env : Env) (w : World) (nodeId addr : string) :
  pool_inv env w ->
  cs w !! nodeId = None ->
  grpc_DialContext env (clock w) addr = None ->
  pool_inv env
    {| cs := <[nodeId := {| conn := clock w |}]> (cs w); clock := S (clock w);
       trace := trace w ++ [EvDial addr (3 * ReqTimeout) (clock w)] |}.
Proof.
  intros [Hold Hinj Hopen Hcold Honce Hdial Hcdial Hleak Hcopen Hcalls] Hfree Hok.
  assert (Hnc : forall t, EvDial addr (3 * ReqTimeout) (clock w) <> EvClose t) by done.
  constructor; cbn [cs clock trace]; rewrite ?(closes_snoc_open _ _ Hnc); try done.
  - intros k c. rewrite lookup_insert. case_decide.
    + intros [= <-]. cbn. lia.
    + intros Hk. apply Hold in Hk. lia.
  - intros k1 k2 c. rewrite !lookup_insert. repeat case_decide; subst; try done.
    + intros [= <-] Hk. apply Hold in Hk. cbn in Hk. lia.
    + intros Hk [= <-]. apply Hold in Hk. cbn in Hk. lia.
    + apply Hinj.
  - intros k c. rewrite lookup_insert. case_decide.
    + intros [= <-] Hin%Hcold. cbn in Hin. lia.
    + apply Hopen.
  - intros t Ht. apply Hcold in Ht. lia.
  - intros k c. rewrite lookup_insert. case_decide.
    + intros [= <-]. exists (length (trace w)), addr. cbn.
      split; [|done]. apply lookup_snoc_Some. by right.
    + intros Hk. destruct (Hdial k c Hk) as (i & a & Hi & Ha).
      exists i, a. split; [by apply lookup_app_l_Some|done].
  - intros i t [[_ Hi]|[_ [=]]]%lookup_snoc_Some.
    destruct (Hcdial i t Hi) as (j & a & Hj & Hjj & Ha).
    exists j, a. split; [done|]. split; [by apply lookup_app_l_Some|done].
  - intros a timeout t [Hin|Hin]%elem_of_app Ha.
    + destruct (Hleak a timeout t Hin Ha) as [[k Hk]|Hc]; [left|by right].
      exists k. rewrite lookup_insert_ne; [done|congruence].
    + apply list_elem_of_singleton in Hin. injection Hin as -> -> ->.
      left. exists nodeId. by rewrite lookup_insert_eq.
  - intros i j cl timeout r [[_ Hj]|[_ [=]]]%lookup_snoc_Some
      [[_ Hi]|[_ [=]]]%lookup_snoc_Some.
    by eapply Hcopen.
  - intros j cl timeout r [[_ Hj]|[_ [=]]]%lookup_snoc_Some.
    destruct (Hcalls j cl timeout r Hj) as [Ht (i & a & Hi & Hii & Ha)].
    split; [done|]. exists i, a.
    split; [done|]. split; [by apply lookup_app_l_Some|done].
Qed.

Lemma pool_inv_remove (env : Env) (w : World) (nodeId : string) (c : client) :
  pool_inv env w ->
  cs w !! nodeId = Some c ->
  pool_inv env
    {| cs := delete nodeId (cs w); clock := clock w;
       trace := trace w ++ [EvClose (conn c)] |}.
Proof.
  intros [Hold Hinj Hopen Hcold Honce Hdial Hcdial Hleak Hcopen Hcalls] Hc.
  constructor; cbn [cs clock trace]; rewrite ?closes_snoc.
  - intros k c'. rewrite lookup_delete. case_decide; [done|apply Hold].
  - intros k1 k2 c'. rewrite !lookup_delete. repeat case_decide; try done.
    apply Hinj.
  - intros k c'. rewrite lookup_delete. case_decide as Hk; [done|].
    intros Hk' [Hin|Hin]%elem_of_app; [by eapply Hopen|].
    apply list_elem_of_singleton, client_eq in Hin. subst c'.
    by destruct (Hk (Hinj _ _ _ Hc Hk')).
  - intros t [Hin|Hin]%elem_of_app; [by apply Hcold|].
    apply list_elem_of_singleton in Hin. subst t. by eapply Hold.
  - apply NoDup_app. split; [done|]. split; [|apply NoDup_singleton].
    intros t Ht ->%list_elem_of_singleton. by eapply Hopen.
  - intros k c'. rewrite lookup_delete. case_decide; [done|]. intros Hk.
    destruct (Hdial k c' Hk) as (i & a & Hi & Ha).
    exists i, a. split; [by apply lookup_app_l_Some|done].
  - intros i t [[_ Hi]|[-> [= <-]]]%lookup_snoc_Some.
    + destruct (Hcdial i t Hi) as (j & a & Hj & Hjj & Ha).
      exists j, a. split; [done|]. split; [by apply lookup_app_l_Some|done].
    + destruct (Hdial nodeId c Hc) as (j & a & Hj & Ha).
      exists j, a. split; [by eapply lookup_lt_Some|].
      split; [by apply lookup_app_l_Some|done].
  - intros a timeout t [Hin|Hin]%elem_of_app Ha;
      [|by apply list_elem_of_singleton in Hin].
    destruct (Hleak a timeout t Hin Ha) as [[k Hk]|Hcl].
    + destruct (decide (k = nodeId)) as [->|Hne].
      * right. apply elem_of_app. right. apply list_elem_of_singleton.
        rewrite Hc in Hk. by injection Hk as ->.
      * left. exists k. by rewrite lookup_delete_ne.
    + right. apply elem_of_app. by left.
  - intros i j cl timeout r [[_ Hj]|[_ [=]]]%lookup_snoc_Some
      [[_ Hi]|[-> _]]%lookup_snoc_Some.
    + by eapply Hcopen.
    + by eapply lookup_lt_Some.
  - intros j cl timeout r [[_ Hj]|[_ [=]]]%lookup_snoc_Some.
    destruct (Hcalls j cl timeout r Hj) as [Ht (i & a & Hi & Hii & Ha)].
    split; [done|]. exists i, a.
    split; [done|]. split; [by apply lookup_app_l_Some|done].
Qed.

Lemma pool_inv_step (env : Env) (w w' : World) :
  cm_step env w w' -> pool_inv env w -> pool_inv env w'.
Proof.
  destruct 1 as [w|w e He|w nodeId cl r Hcl|w addr e He|w nodeId addr Hfree Hok
                 |w nodeId c Hc]; intros Hinv.
  - by apply pool_inv_tick.
  - apply pool_inv_snoc;
      [done|intros t ->|intros a timeout t ->|intros cl timeout r ->];
      discriminate He.
  - apply pool_inv_snoc; [done|..]; try (intros; discriminate).
    intros cl' timeout r' [= <- <- <-]. split; [done|by exists nodeId].
  - apply (pool_inv_snoc env {| cs := cs w; clock := S (clock w); trace := trace w |});
      [by apply pool_inv_tick|..]; try (intros; discriminate).
    intros a timeout t [= <- <- <-]. split; [done|]. by rewrite He.
  - by apply pool_inv_dial.
  - by apply pool_inv_remove.
Qed.

Lemma pool_inv_walk (env : Env) (w w' : World) :
  rtc (cm_step env) w w' -> pool_inv env w -> pool_inv env w'.
Proof. induction 1; eauto using pool_inv_step. Qed.

Lemma pool_inv_started (env : Env) (clk : nat) : pool_inv env (started clk).
Proof.
  constructor; cbn; try (intros ? ? ?; by rewrite ?lookup_empty);
    try (intros; by rewrite ?lookup_empty in * ); try apply NoDup_nil_2.
  - intros t Ht. by apply elem_of_nil in Ht.
  - intros addr timeout t Ht. by apply elem_of_nil in Ht.
Qed.

Lemma pool_inv_run_ops (env : Env) (ops : list PoolOp) (clk : nat) :
  pool_inv env (run_ops env ops (started clk)).2.
Proof.
  eapply pool_inv_walk; [apply walks_run_ops|apply pool_inv_started].
Qed.

(** ** The life of a connection: what every run keeps *)

(** X1: in every state a fresh [ClientManager] reaches, whatever calls
    were made on it, an RPC was never placed on a connection that had been
    closed (every close of a connection comes after every RPC on it), and
    no client the pool holds has its connection closed. *)
Theorem rpc_never_on_closed_connection (env : Env) (ops : list PoolOp) (clk : nat) :
  let w := (run_ops env ops (started clk)).2 in
  (forall i j cl timeout r,
      trace w !! j = Some (EvCall cl timeout r) ->
      trace w !! i = Some (EvClose (conn cl)) ->
      (j < i)%nat)
  /\ (forall k c i,
      cs w !! k = Some c -> trace w !! i <> Some (EvClose (conn c))).
Proof.
  intros w. destruct (pool_inv_run_ops env ops clk). split; [done|].
  intros k c i Hk Hi. eapply inv_open0; [exact Hk|].
  apply elem_of_closes. by exists i.
Qed.

Lemma rpc_never_on_closed_connection_witness :
  trace Runs.after_churn !! 1%nat
    = Some (EvCall {| conn := 1 |} ReqTimeout
              (ReqPublishPacket (RelayPublishPacket_req Scenario.m_publish)))
  /\ trace Runs.after_churn !! 2%nat = Some (EvClose 1)
  /\ (1 < 2)%nat.
Proof.
  assert (Hcall : trace Runs.after_churn !! 1%nat
            = Some (EvCall {| conn := 1 |} ReqTimeout
                      (ReqPublishPacket (RelayPublishPacket_req Scenario.m_publish))))
    by reflexivity.
  assert (Hclose : trace Runs.after_churn !! 2%nat = Some (EvClose 1)) by reflexivity.
  split; [exact Hcall|]. split; [exact Hclose|].
  exact (proj1 (rpc_never_on_closed_connection Scenario.env_up Runs.churn 0)
           2%nat 1%nat _ _ _ Hcall Hclose).
Defined.

(** X2: in every state a fresh [ClientManager] reaches, whatever calls
    were made on it, no connection was closed twice, and every
    connection closed was dialed before, by a dial that succeeded. *)
Theorem connections_closed_once_after_dial (env : Env) (ops : list PoolOp) (clk : nat) :
  let w := (run_ops env ops (started clk)).2 in
  NoDup (closes (trace w))
  /\ (forall i t,
      trace w !! i = Some (EvClose t) ->
      exists j addr,
        (j < i)%nat
        /\ trace w !! j = Some (EvDial addr (3 * ReqTimeout) t)
        /\ grpc_DialContext env t addr = None).
Proof. intros w. by destruct (pool_inv_run_ops env ops clk). Qed.

Lemma connections_closed_once_after_dial_witness :
  trace Runs.after_churn !! 2%nat = Some (EvClose 1)
  /\ exists j addr,
      (j < 2)%nat
      /\ trace Runs.after_churn !! j = Some (EvDial addr (3 * ReqTimeout) 1)
      /\ grpc_DialContext Scenario.env_up 1 addr = None.
Proof.
  assert (Hclose : trace Runs.after_churn !! 2%nat = Some (EvClose 1)) by reflexivity.
  split; [exact Hclose|].
  exact (proj2 (connections_closed_once_after_dial Scenario.env_up Runs.churn 0)
           2%nat 1%nat Hclose).
Defined.

(** X3: in every state a fresh [ClientManager] reaches, whatever calls
    were made on it, a connection whose dial succeeded is either
    held by the pool or closed, and never both: the pool loses no
    connection. *)
Theorem no_connection_leak (env : Env) (ops : list PoolOp) (clk : nat) :
  let w := (run_ops env ops (started clk)).2 in
  forall addr timeout t,
    EvDial addr timeout t ∈ trace w ->
    grpc_DialContext env t addr = None ->
    ((exists k, cs w !! k = Some {| conn := t |}) \/ t ∈ closes (trace w))
    /\ ~ ((exists k, cs w !! k = Some {| conn := t |}) /\ t ∈ closes (trace w)).
Proof.
  intros w addr timeout t Hin Hok. destruct (pool_inv_run_ops env ops clk).
  split; [by eapply inv_no_leak0|].
  intros [[k Hk] Hc]. by eapply inv_open0.
Qed.

Lemma no_connection_leak_witness :
  EvDial "10.0.0.2:17946" (3 * ReqTimeout) 1 ∈ trace Runs.after_churn
  /\ grpc_DialContext Scenario.env_up 1 "10.0.0.2:17946" = None
  /\ ((exists k, cs Runs.after_churn !! k = Some {| conn := 1 |})
      \/ 1%nat ∈ closes (trace Runs.after_churn)).
Proof.
  assert (Hin : EvDial "10.0.0.2:17946" (3 * ReqTimeout) 1 ∈ trace Runs.after_churn).
  { vm_compute. constructor. }
  assert (Hok : grpc_DialContext Scenario.env_up 1 "10.0.0.2:17946" = None)
    by reflexivity.
  split; [exact Hin|]. split; [exact Hok|].
  exact (proj1 (no_connection_leak Scenario.env_up Runs.churn 0 _ _ _ Hin Hok)).
Defined.

(** X4: in every state a fresh [ClientManager] reaches, whatever calls
    were made on it, two node ids never share a client, and every
    client the pool holds wraps a connection whose dial succeeded, at an
    instant that is past. *)
Theorem pool_clients_distinct_and_dialed (env : Env) (ops : list PoolOp) (clk : nat) :
  let w := (run_ops env ops (started clk)).2 in
  (forall k1 k2 c, cs w !! k1 = Some c -> cs w !! k2 = Some c -> k1 = k2)
  /\ (forall k c,
      cs w !! k = Some c ->
      (conn c < clock w)%nat
      /\ exists i addr,
          trace w !! i = Some (EvDial addr (3 * ReqTimeout) (conn c))
          /\ grpc_DialContext env (conn c) addr = None).
Proof.
  intros w. destruct (pool_inv_run_ops env ops clk). split; [done|].
  intros k c Hk. split; [by eapply inv_old0|by eapply inv_dialed0].
Qed.

Lemma pool_clients_distinct_and_dialed_witness :
  cs Runs.after_churn !! "B" = Some {| conn := 4 |}
  /\ (4 < clock Runs.after_churn)%nat
  /\ exists i addr,
      trace Runs.after_churn !! i = Some (EvDial addr (3 * ReqTimeout) 4)
      /\ grpc_DialContext Scenario.env_up 4 addr = None.
Proof.
  assert (Hb : cs Runs.after_churn !! "B" = Some {| conn := 4 |}) by reflexivity.
  split; [exact Hb|].
  exact (proj2 (pool_clients_distinct_and_dialed Scenario.env_up Runs.churn 0)
           "B" {| conn := 4 |} Hb).
Defined.

Lemma cm_step_timely (env : Env) (w w' : World) :
  cm_step env w w' -> exists evs, trace w' = trace w ++ evs /\ Forall timely evs.
Proof.
  destruct 1; cbn [trace];
    try (eexists; split; [reflexivity|]; repeat constructor; fail).
  - exists []. by rewrite app_nil_r.
  - exists [e]. split; [done|]. repeat constructor. by destruct e.
Qed.

Lemma walk_timely (env : Env) (w w' : World) :
  rtc (cm_step env) w w' -> exists evs, trace w' = trace w ++ evs /\ Forall timely evs.
Proof.
  induction 1 as [w|w w1 w2 Hs _ (evs2 & Ht2 & Hf2)].
  - exists []. by rewrite app_nil_r.
  - destruct (cm_step_timely _ _ _ Hs) as (evs1 & Ht1 & Hf1).
    exists (evs1 ++ evs2). split; [by rewrite Ht2, Ht1, app_assoc|].
    by apply Forall_app.
Qed.

(** X5: whatever calls are made on a [ClientManager], from any state,
    every RPC they place is under ten times [ReqTimeout] if it is a
    [RaftApply] and under [ReqTimeout] otherwise, and every dial they make
    is under three times [ReqTimeout]. *)
Theorem every_call_under_its_deadline (env : Env) (ops : list PoolOp) (w : World) :
  (forall cl timeout r,
      EvCall cl timeout r ∈ effects (run_ops env ops) w ->
      timeout = match r with
                | ReqRaftApply _ => 10 * ReqTimeout
                | _ => ReqTimeout
                end)
  /\ (forall addr timeout t,
      EvDial addr timeout t ∈ effects (run_ops env ops) w ->
      timeout = 3 * ReqTimeout).
Proof.
  destruct (walk_timely env _ _ (walks_run_ops env ops w)) as (evs & Ht & Hf).
  rewrite (effects_app _ _ _ Ht). rewrite Forall_forall in Hf.
  split; intros ? ? ? Hin; apply (Hf _ Hin).
Qed.

Lemma every_call_under_its_deadline_witness :
  EvCall {| conn := 4 |} (10 * ReqTimeout)
    (ReqRaftApply (RelayRaftApply_req Scenario.m_publish))
    ∈ effects (run_ops Scenario.env_up Runs.churn) (started 0)
  /\ 10 * ReqTimeout = 10 * ReqTimeout.
Proof.
  assert (Hin : EvCall {| conn := 4 |} (10 * ReqTimeout)
                  (ReqRaftApply (RelayRaftApply_req Scenario.m_publish))
                  ∈ effects (run_ops Scenario.env_up Runs.churn) (started 0)).
  { vm_compute. do 4 apply list_elem_of_further. constructor. }
  split; [exact Hin|].
  exact (proj1 (every_call_under_its_deadline Scenario.env_up Runs.churn (started 0))
           _ _ _ Hin).
Defined.

(** ** How many RPCs, and to whom *)

Lemma effects_ext {A : Type} (c c' : M A) (w : World) :
  c w = c' w -> effects c w = effects c' w.
Proof. unfold effects. by intros ->. Qed.

Lemma relay_shape_calls (env : Env) (nodeId : string)
    (on_fail : error -> list Event) (pre : list Event)
    (timeout : Z) (req : Request) (on_err : error -> Event) (w : World) :
  (forall err, calls (on_fail err) = []) ->
  calls pre = [] ->
  (forall e, calls [on_err e] = []) ->
  calls (effects (relay_shape env nodeId on_fail pre timeout req on_err) w) =
    match (getClient env nodeId w).1 with
    | Success cl => [(cl, req)]
    | Failure _ => []
    end.
Proof.
  intros Hfail Hpre Herr.
  pose proof (growing_effects _ w (growing_getClient env nodeId)) as Hg.
  destruct (getClient_quiet env nodeId w) as [_ Hq].
  unfold effects at 1, relay_shape. cbv zeta.
  destruct (getClient env nodeId w) as [[cl|err] w1]; cbn [fst snd trace] in *;
    rewrite Hg, <- !app_assoc, drop_app_length, !calls_app, Hq.
  - rewrite Hpre. cbn. destruct (grpc_Invoke _ _ _ _); [|done].
    change (calls (?x :: ?l)) with (calls ([x] ++ l)). by rewrite Herr.
  - by rewrite Hfail.
Qed.

Lemma unicast_calls (env : Env) (nodeId clientId : string) (msg : Message) (w : World) :
  let got req := match (getClient env nodeId w).1 with
                 | Success cl => [(cl, req)]
                 | Failure _ => []
                 end in
  calls (effects (RelayPublishPacket env nodeId msg) w)
    = got (ReqPublishPacket (RelayPublishPacket_req msg))
  /\ calls (effects (ConnectNotifyToNode env nodeId clientId) w)
    = got (ReqConnectNotify (ConnectNotifyToNode_req env clientId))
  /\ calls (effects (RelayRaftApply env nodeId msg) w)
    = got (ReqRaftApply (RelayRaftApply_req msg))
  /\ calls (effects (RelayRaftJoin env nodeId) w)
    = got (ReqRaftJoin (RelayRaftJoin_req env)).
Proof.
  intros got. repeat split.
  - rewrite (effects_ext _ _ _ (RelayPublishPacket_shape env nodeId msg w)).
    by apply relay_shape_calls.
  - rewrite (effects_ext _ _ _ (ConnectNotifyToNode_shape env nodeId clientId w)).
    by apply relay_shape_calls.
  - rewrite (effects_ext _ _ _ (RelayRaftApply_shape env nodeId msg w)).
    by apply relay_shape_calls.
  - rewrite (effects_ext _ _ _ (RelayRaftJoin_shape env nodeId w)).
    by apply relay_shape_calls.
Qed.

Lemma range_members_calls_bound (call : string -> M unit) (req : Request)
    (ms : list Member) (w : World) :
  (forall n, growing (call n)) ->
  (forall n w',
      length (calls (effects (call n) w')) <= 1
      /\ Forall (fun p => p.2 = req) (calls (effects (call n) w')))%nat ->
  (length (calls (effects (range_members ms (fun m => call (Name m))) w))
     <= length ms)%nat
  /\ Forall (fun p => p.2 = req)
       (calls (effects (range_members ms (fun m => call (Name m))) w)).
Proof.
  intros Hg Hcall. revert w. induction ms as [|m ms IH]; intros w.
  { unfold effects. cbn. rewrite drop_all. by split. }
  cbn [range_members]. rewrite effects_bind; [|apply Hg|].
  - rewrite calls_app, length_app. destruct (Hcall (Name m) w) as [H1 H2].
    destruct (IH (call (Name m) w).2) as [H3 H4].
    split; [cbn [length]; lia|by apply Forall_app].
  - intros _. apply growing_range_members. intros m'. apply Hg.
Qed.

Lemma got_bound (r : result client) (req : Request) :
  (length (match r with Success cl => [(cl, req)] | Failure _ => [] end) <= 1)%nat
  /\ Forall (fun p : client * Request => p.2 = req)
       (match r with Success cl => [(cl, req)] | Failure _ => [] end).
Proof. destruct r; cbn; split; try lia; by repeat constructor. Qed.

Lemma broadcasts_as_ranges (env : Env) (msg : Message) (w : World) :
  let snapshot := Members env (clock w) in
  let w1 := {| cs := cs w; clock := S (clock w); trace := trace w |} in
  ConnectNotifyToOthers env msg w =
    range_members (others env snapshot)
      (fun m => ConnectNotifyToNode env (Name m) (ClientID msg)) w1
  /\ RaftApplyToOthers env msg w =
    range_members (others env snapshot)
      (fun m => RelayRaftApply env (Name m) msg) w1
  /\ RaftJoinToOthers env w =
    range_members (others env snapshot)
      (fun m => RelayRaftJoin env (Name m)) w1.
Proof.
  intros snapshot w1. repeat split;
    [unfold ConnectNotifyToOthers|unfold RaftApplyToOthers|unfold RaftJoinToOthers];
    cbv [mbind M_bind tick]; apply range_members_others.
Qed.

Lemma relay_shape_one_call (env : Env) (nodeId : string)
    (on_fail : error -> list Event) (pre : list Event)
    (timeout : Z) (req : Request) (on_err : error -> Event) (w : World) :
  (forall err, calls (on_fail err) = []) ->
  calls pre = [] ->
  (forall e, calls [on_err e] = []) ->
  one_call (cs (relay_shape env nodeId on_fail pre timeout req on_err w).2) req
    nodeId (calls (effects (relay_shape env nodeId on_fail pre timeout req on_err) w)).
Proof.
  intros Hfail Hpre Herr. rewrite relay_shape_calls by done.
  pose proof (getClient_success_cached env nodeId w) as Hheld.
  unfold relay_shape. cbv zeta.
  destruct (getClient env nodeId w).1 as [cl|err]; [|by left].
  right. exists cl. split; [|done]. cbn [snd cs]. by apply Hheld.
Qed.

Lemma unicast_one_call (env : Env) (nodeId clientId : string) (msg : Message)
    (w : World) :
  one_call (cs (RelayPublishPacket env nodeId msg w).2)
    (ReqPublishPacket (RelayPublishPacket_req msg)) nodeId
    (calls (effects (RelayPublishPacket env nodeId msg) w))
  /\ one_call (cs (ConnectNotifyToNode env nodeId clientId w).2)
       (ReqConnectNotify (ConnectNotifyToNode_req env clientId)) nodeId
       (calls (effects (ConnectNotifyToNode env nodeId clientId) w))
  /\ one_call (cs (RelayRaftApply env nodeId msg w).2)
       (ReqRaftApply (RelayRaftApply_req msg)) nodeId
       (calls (effects (RelayRaftApply env nodeId msg) w))
  /\ one_call (cs (RelayRaftJoin env nodeId w).2)
       (ReqRaftJoin (RelayRaftJoin_req env)) nodeId
       (calls (effects (RelayRaftJoin env nodeId) w)).
Proof.
  rewrite (effects_ext _ _ _ (RelayPublishPacket_shape env nodeId msg w)),
    (effects_ext _ _ _ (ConnectNotifyToNode_shape env nodeId clientId w)),
    (effects_ext _ _ _ (RelayRaftApply_shape env nodeId msg w)),
    (effects_ext _ _ _ (RelayRaftJoin_shape env nodeId w)).
  rewrite RelayPublishPacket_shape, ConnectNotifyToNode_shape,
    RelayRaftApply_shape, RelayRaftJoin_shape.
  repeat split; by apply relay_shape_one_call.
Qed.

Lemma range_members_one_call_each (call : string -> M unit) (req : Request)
    (ms : list Member) (w : World) :
  (forall n, growing (call n)) ->
  (forall n w', one_call (cs (call n w').2) req n (calls (effects (call n) w'))) ->
  one_call_each (cs (range_members ms (fun m => call (Name m)) w).2) req ms
    (calls (effects (range_members ms (fun m => call (Name m))) w)).
Proof.
  intros Hg Hcall. revert w. induction ms as [|m ms IH]; intros w.
  { exists []. unfold effects. cbn. rewrite drop_all. by split; [|constructor]. }
  assert (Hrest : growing (range_members ms (fun m' => call (Name m')))).
  { apply growing_range_members. intros m'. apply Hg. }
  cbn [range_members]. rewrite effects_bind; [|apply Hg|by intros _].
  rewrite calls_app. specialize (Hcall (Name m) w).
  destruct (IH (call (Name m) w).2) as (per & Hper & Hall).
  specialize (Hrest (call (Name m) w).2).
  cbv [mbind M_bind]. destruct (call (Name m) w) as [[] w1]. cbn [snd] in *.
  exists (calls (effects (call (Name m)) w) :: per). split.
  - cbn [concat]. by rewrite Hper.
  - constructor; [|done].
    destruct Hcall as [->|(cl & Hheld & ->)]; [by left|].
    right. exists cl. split; [|done]. by apply (grows_keeps w1).
Qed.

(** X6: every unicast relay call places no RPC or exactly one, with its own
    request and on the client the pool then holds for the target; every
    broadcast places, for each entry of its snapshot that is not the local
    node and in snapshot order, no RPC or exactly one, with the broadcast's
    own request and on the client the pool holds under that entry's name
    when the broadcast is over. So no entry is called twice, and the number
    of RPCs is at most the number of such entries. *)
Theorem at_most_one_rpc_per_peer (env : Env) (msg : Message)
    (nodeId clientId : string) (w : World) :
  let visited := others env (Members env (clock w)) in
  let n := length visited in
  ((length (calls (effects (RelayPublishPacket env nodeId msg) w)) <= 1)%nat
   /\ (length (calls (effects (ConnectNotifyToNode env nodeId clientId) w)) <= 1)%nat
   /\ (length (calls (effects (RelayRaftApply env nodeId msg) w)) <= 1)%nat
   /\ (length (calls (effects (RelayRaftJoin env nodeId) w)) <= 1)%nat)
  /\ ((length (calls (effects (ConnectNotifyToOthers env msg) w)) <= n)%nat
      /\ Forall (fun p => p.2 = ReqConnectNotify
                                  (ConnectNotifyToNode_req env (ClientID msg)))
           (calls (effects (ConnectNotifyToOthers env msg) w)))
  /\ ((length (calls (effects (RaftApplyToOthers env msg) w)) <= n)%nat
      /\ Forall (fun p => p.2 = ReqRaftApply (RelayRaftApply_req msg))
           (calls (effects (RaftApplyToOthers env msg) w)))
  /\ ((length (calls (effects (RaftJoinToOthers env) w)) <= n)%nat
      /\ Forall (fun p => p.2 = ReqRaftJoin (RelayRaftJoin_req env))
           (calls (effects (RaftJoinToOthers env) w)))
  /\ (one_call (cs (RelayPublishPacket env nodeId msg w).2)
        (ReqPublishPacket (RelayPublishPacket_req msg)) nodeId
        (calls (effects (RelayPublishPacket env nodeId msg) w))
      /\ one_call (cs (ConnectNotifyToNode env nodeId clientId w).2)
           (ReqConnectNotify (ConnectNotifyToNode_req env clientId)) nodeId
           (calls (effects (ConnectNotifyToNode env nodeId clientId) w))
      /\ one_call (cs (RelayRaftApply env nodeId msg w).2)
           (ReqRaftApply (RelayRaftApply_req msg)) nodeId
           (calls (effects (RelayRaftApply env nodeId msg) w))
      /\ one_call (cs (RelayRaftJoin env nodeId w).2)
           (ReqRaftJoin (RelayRaftJoin_req env)) nodeId
           (calls (effects (RelayRaftJoin env nodeId) w)))
  /\ (one_call_each (cs (ConnectNotifyToOthers env msg w).2)
        (ReqConnectNotify (ConnectNotifyToNode_req env (ClientID msg))) visited
        (calls (effects (ConnectNotifyToOthers env msg) w))
      /\ one_call_each (cs (RaftApplyToOthers env msg w).2)
           (ReqRaftApply (RelayRaftApply_req msg)) visited
           (calls (effects (RaftApplyToOthers env msg) w))
      /\ one_call_each (cs (RaftJoinToOthers env w).2)
           (ReqRaftJoin (RelayRaftJoin_req env)) visited
           (calls (effects (RaftJoinToOthers env) w))).
Proof.
  intros visited n.
  destruct (broadcasts_as_ranges env msg w) as (Hc & Ha & Hj).
  split.
  { destruct (unicast_calls env nodeId clientId msg w) as (-> & -> & -> & ->).
    repeat split; apply got_bound. }
  unfold effects. rewrite Hc, Ha, Hj.
  set (w1 := {| cs := cs w; clock := S (clock w); trace := trace w |}).
  split; [|split; [|split; [|split; [|split; [|split]]]]].
  - apply (range_members_calls_bound
             (fun k => ConnectNotifyToNode env k (ClientID msg)) _ _ w1).
    + intros k. apply growing_ConnectNotifyToNode.
    + intros k w'.
      destruct (unicast_calls env k (ClientID msg) msg w') as (_ & -> & _).
      apply got_bound.
  - apply (range_members_calls_bound (fun k => RelayRaftApply env k msg) _ _ w1).
    + intros k. apply growing_RelayRaftApply.
    + intros k w'.
      destruct (unicast_calls env k clientId msg w') as (_ & _ & -> & _).
      apply got_bound.
  - apply (range_members_calls_bound (RelayRaftJoin env) _ _ w1).
    + intros k. apply growing_RelayRaftJoin.
    + intros k w'.
      destruct (unicast_calls env k clientId msg w') as (_ & _ & _ & ->).
      apply got_bound.
  - apply (unicast_one_call env nodeId clientId msg w).
  - apply (range_members_one_call_each
             (fun k => ConnectNotifyToNode env k (ClientID msg)) _ _ w1).
    + intros k. apply growing_ConnectNotifyToNode.
    + intros k w'. apply (unicast_one_call env k (ClientID msg) msg w').
  - apply (range_members_one_call_each (fun k => RelayRaftApply env k msg) _ _ w1).
    + intros k. apply growing_RelayRaftApply.
    + intros k w'. apply (unicast_one_call env k clientId msg w').
  - apply (range_members_one_call_each (RelayRaftJoin env) _ _ w1).
    + intros k. apply growing_RelayRaftJoin.
    + intros k w'. apply (unicast_one_call env k clientId msg w').
Qed.

Lemma getClient_other_key (env : Env) (nodeId k : string) (w : World) :
  k <> nodeId -> cs (getClient env nodeId w).2 !! k = cs w !! k.
Proof.
  intros Hk. destruct (getClient_spec env nodeId w); cbn [cs]; try done.
  by rewrite lookup_insert_ne.
Qed.

Lemma relay_shape_other_key (env : Env) (nodeId k : string)
    (on_fail : error -> list Event) (pre : list Event)
    (timeout : Z) (req : Request) (on_err : error -> Event) (w : World) :
  k <> nodeId ->
  cs (relay_shape env nodeId on_fail pre timeout req on_err w).2 !! k = cs w !! k.
Proof.
  intros Hk. rewrite <- (getClient_other_key env nodeId k w Hk).
  unfold relay_shape. cbv zeta. by destruct (getClient env nodeId w).1.
Qed.

Lemma unicast_other_key (env : Env) (nodeId clientId k : string) (msg : Message)
    (w : World) :
  k <> nodeId ->
  cs (RelayPublishPacket env nodeId msg w).2 !! k = cs w !! k
  /\ cs (ConnectNotifyToNode env nodeId clientId w).2 !! k = cs w !! k
  /\ cs (RelayRaftApply env nodeId msg w).2 !! k = cs w !! k
  /\ cs (RelayRaftJoin env nodeId w).2 !! k = cs w !! k.
Proof.
  intros Hk.
  rewrite RelayPublishPacket_shape, ConnectNotifyToNode_shape,
    RelayRaftApply_shape, RelayRaftJoin_shape.
  repeat split; by apply relay_shape_other_key.
Qed.

Lemma range_members_other_key (call : string -> M unit) (ms : list Member)
    (k : string) (w : World) :
  (forall n w', k <> n -> cs (call n w').2 !! k = cs w' !! k) ->
  k ∉ (Name <$> ms) ->
  cs (range_members ms (fun m => call (Name m)) w).2 !! k = cs w !! k.
Proof.
  intros Hcall. revert w. induction ms as [|m ms IH]; intros w Hk; [done|].
  rewrite fmap_cons, not_elem_of_cons in Hk. destruct Hk as [Hm Hms].
  cbn [range_members]. cbv [mbind M_bind].
  pose proof (Hcall (Name m) w Hm) as H1.
  destruct (call (Name m) w) as [[] w1]. cbn [snd] in H1.
  by rewrite IH, H1.
Qed.

Lemma local_not_among_others (env : Env) (ms : list Member) :
  GetLocalName env ∉ (Name <$> others env ms).
Proof.
  intros (m & Hn & Hm)%list_elem_of_fmap.
  unfold others in Hm. apply list_elem_of_filter in Hm as [Hne _]. congruence.
Qed.

(** X7: a broadcast changes the pool only under the names of the snapshot
    entries it visits: the entry of every other node id is what it was. In
    particular it never creates, replaces or drops a client for the local
    node. *)
Theorem broadcast_touches_only_visited_keys (env : Env) (msg : Message) (w : World) :
  let visited := Name <$> others env (Members env (clock w)) in
  (forall k,
      k ∉ visited ->
      cs (ConnectNotifyToOthers env msg w).2 !! k = cs w !! k
      /\ cs (RaftApplyToOthers env msg w).2 !! k = cs w !! k
      /\ cs (RaftJoinToOthers env w).2 !! k = cs w !! k)
  /\ cs (ConnectNotifyToOthers env msg w).2 !! GetLocalName env
       = cs w !! GetLocalName env
  /\ cs (RaftApplyToOthers env msg w).2 !! GetLocalName env
       = cs w !! GetLocalName env
  /\ cs (RaftJoinToOthers env w).2 !! GetLocalName env
       = cs w !! GetLocalName env.
Proof.
  intros visited.
  assert (Hall : forall k,
    k ∉ visited ->
    cs (ConnectNotifyToOthers env msg w).2 !! k = cs w !! k
    /\ cs (RaftApplyToOthers env msg w).2 !! k = cs w !! k
    /\ cs (RaftJoinToOthers env w).2 !! k = cs w !! k).
  { intros k Hk.
    destruct (broadcasts_as_ranges env msg w) as (-> & -> & ->).
    set (w1 := {| cs := cs w; clock := S (clock w); trace := trace w |}).
    change (cs w) with (cs w1). repeat split.
    - apply (range_members_other_key
               (fun n => ConnectNotifyToNode env n (ClientID msg))); [|done].
      intros n w' Hn. by apply (unicast_other_key env n (ClientID msg) k msg w').
    - apply (range_members_other_key (fun n => RelayRaftApply env n msg)); [|done].
      intros n w' Hn. by apply (unicast_other_key env n "" k msg w').
    - apply (range_members_other_key (RelayRaftJoin env)); [|done].
      intros n w' Hn. by apply (unicast_other_key env n "" k msg w'). }
  split; [exact Hall|]. apply Hall, local_not_among_others.
Qed.

Lemma broadcast_touches_only_visited_keys_witness :
  ("D" ∉ (Name <$> others Scenario.env_up (Members Scenario.env_up (clock Scenario.wB))))
  /\ cs (RaftApplyToOthers Scenario.env_up Scenario.m_publish Scenario.wB).2 !! "D"
     = cs Scenario.wB !! "D".
Proof.
  assert (Hd : "D" ∉ (Name <$> others Scenario.env_up
                               (Members Scenario.env_up (clock Scenario.wB)))).
  { intros Hin. vm_compute in Hin.
    repeat (apply elem_of_cons in Hin as [Hin|Hin]; [discriminate Hin|]).
    by apply elem_of_nil in Hin. }
  split; [exact Hd|].
  exact (proj1 (proj2 (proj1 (broadcast_touches_only_visited_keys
                                Scenario.env_up Scenario.m_publish Scenario.wB)
                         "D" Hd))).
Defined.

(** ** What reaches the peer: join and connect *)

Lemma string_length_app (a b : string) :
  String.length (a +:+ b) = (String.length a + String.length b)%nat.
Proof. induction a as [|c a IH]; simpl; [done|by f_equal]. Qed.

Lemma list_byte_of_string_inj (a b : string) :
  String.list_byte_of_string a = String.list_byte_of_string b -> a = b.
Proof.
  intros H. rewrite <- (String.string_of_list_byte_of_string a),
    <- (String.string_of_list_byte_of_string b). by rewrite H.
Qed.

Lemma uint32_small (x : Z) : is_uint32 x -> uint32 x = x.
Proof. unfold is_uint32, uint32. intros Hx. by apply Z.mod_small. Qed.

(** X8: the request [RelayRaftJoin] places makes the receiving [RaftJoin]
    handler deliver a message of type [message.RaftJoin] from the sender's
    local name. With a raft port that fits 32 bits, its payload is the
    sender's "BindAddr:RaftPort", the very address the sender logs when
    the call fails, provided [BindAddr] has no colon in it; when it has
    one, the payload is "[BindAddr]:RaftPort" and differs from the logged
    address. *)
Theorem join_payload_is_sender_address
  (K : Consts) (env : Env) (nodeId : string) (w ws : World) :
  let m := RaftJoin_msg K (RelayRaftJoin_req env) in
  let port := Itoa (RaftPort env) in
  let logged := BindAddr env +:+ ":" +:+ port in
  (forall cl r,
      (cl, r) ∈ calls (effects (RelayRaftJoin env nodeId) w) ->
      sends (effects (serve K r) ws) = [m])
  /\ Type_ m = message_RaftJoin K
  /\ NodeID m = GetLocalName env
  /\ (is_uint32 (RaftPort env) ->
      has_colon (BindAddr env) = false ->
      Payload m = String.list_byte_of_string logged)
  /\ (is_uint32 (RaftPort env) ->
      has_colon (BindAddr env) = true ->
      Payload m = String.list_byte_of_string ("[" +:+ BindAddr env +:+ "]:" +:+ port)
      /\ Payload m <> String.list_byte_of_string logged).
Proof.
  intros m port logged. split; [|split; [done|split; [done|split]]].
  - intros cl r.
    destruct (unicast_calls env nodeId "" Scenario.m_publish w) as (_ & _ & _ & ->).
    destruct (getClient env nodeId w).1; [|by intros ?%elem_of_nil].
    intros [= -> ->]%list_elem_of_singleton. apply serve_sends.
  - intros Hp Hc. subst m. unfold RaftJoin_msg, RelayRaftJoin_req, JoinHostPort.
    cbn [join_Addr join_Port Payload]. by rewrite Hc, (uint32_small _ Hp).
  - intros Hp Hc.
    assert (Hpay : Payload m = String.list_byte_of_string
                                 ("[" +:+ BindAddr env +:+ "]:" +:+ port)).
    { subst m. unfold RaftJoin_msg, RelayRaftJoin_req, JoinHostPort.
      cbn [join_Addr join_Port Payload]. by rewrite Hc, (uint32_small _ Hp). }
    split; [exact Hpay|]. rewrite Hpay. intros Heq%list_byte_of_string_inj.
    apply (f_equal String.length) in Heq. subst logged.
    rewrite !string_length_app in Heq. cbn in Heq. lia.
Qed.

Lemma join_payload_is_sender_address_witness :
  is_uint32 (RaftPort Scenario.env_up)
  /\ has_colon (BindAddr Scenario.env_up) = false
  /\ Payload (RaftJoin_msg Scenario.K0 (RelayRaftJoin_req Scenario.env_up))
     = String.list_byte_of_string "10.0.0.1:8946".
Proof.
  assert (Hp : is_uint32 (RaftPort Scenario.env_up)) by (unfold is_uint32; cbn; lia).
  assert (Hc : has_colon (BindAddr Scenario.env_up) = false) by reflexivity.
  split; [exact Hp|]. split; [exact Hc|].
  exact (proj1 (proj2 (proj2 (proj2
    (join_payload_is_sender_address Scenario.K0 Scenario.env_up "B"
       Scenario.w0 Scenario.w0)))) Hp Hc).
Defined.

(** X9: every request a connect notification places, unicast or
    broadcast, makes the receiving [ConnectNotify] handler deliver the
    same message: of type [packets.Connect], from the sender's local name
    (the [NodeID] of the message handed to the broadcast plays no part),
    for the client id given, with no payload. *)
Theorem connect_notify_names_the_sender
  (K : Consts) (env : Env) (nodeId clientId : string) (msg : Message) (w ws : World) :
  (forall cl r,
      (cl, r) ∈ calls (effects (ConnectNotifyToNode env nodeId clientId) w) ->
      sends (effects (serve K r) ws) =
        [{| Type_ := packets_Connect K; NodeID := GetLocalName env;
            ClientID := clientId; ProtocolVersion := 0; Payload := [] |}])
  /\ (forall cl r,
      (cl, r) ∈ calls (effects (ConnectNotifyToOthers env msg) w) ->
      sends (effects (serve K r) ws) =
        [{| Type_ := packets_Connect K; NodeID := GetLocalName env;
            ClientID := ClientID msg; ProtocolVersion := 0; Payload := [] |}]).
Proof.
  split.
  - intros cl r.
    destruct (unicast_calls env nodeId clientId msg w) as (_ & -> & _).
    destruct (getClient env nodeId w).1; [|by intros ?%elem_of_nil].
    intros [= -> ->]%list_elem_of_singleton. apply serve_sends.
  - intros cl r Hin.
    destruct (broadcasts_as_ranges env msg w) as (Hc & _ & _).
    unfold effects in Hin. rewrite Hc in Hin.
    set (w1 := {| cs := cs w; clock := S (clock w); trace := trace w |}) in *.
    destruct (range_members_calls_bound
                (fun k => ConnectNotifyToNode env k (ClientID msg))
                (ReqConnectNotify (ConnectNotifyToNode_req env (ClientID msg)))
                (others env (Members env (clock w))) w1) as [_ Hall].
    + intros k. apply growing_ConnectNotifyToNode.
    + intros k w'.
      destruct (unicast_calls env k (ClientID msg) msg w') as (_ & -> & _).
      apply got_bound.
    + rewrite Forall_forall in Hall. specialize (Hall _ Hin). cbn in Hall.
      subst r. apply serve_sends.
Qed.

Lemma connect_notify_names_the_sender_witness :
  ({| conn := 5 |},
   ReqConnectNotify {| con_NodeId := "A"; con_ClientId := "c1" |})
    ∈ calls (effects (ConnectNotifyToOthers Scenario.env_up Scenario.m_publish)
               Scenario.w0)
  /\ sends (effects
              (serve Scenario.K0
                 (ReqConnectNotify {| con_NodeId := "A"; con_ClientId := "c1" |}))
              Scenario.w0)
     = [{| Type_ := 1; NodeID := "A"; ClientID := "c1"; ProtocolVersion := 0;
           Payload := [] |}].
Proof.
  assert (Hin : ({| conn := 5 |},
                 ReqConnectNotify {| con_NodeId := "A"; con_ClientId := "c1" |})
                  ∈ calls (effects (ConnectNotifyToOthers Scenario.env_up
                                      Scenario.m_publish) Scenario.w0)).
  { vm_compute. apply list_elem_of_further. constructor. }
  split; [exact Hin|].
  exact (proj2 (connect_notify_names_the_sender Scenario.K0 Scenario.env_up "B" "c1"
                  Scenario.m_publish Scenario.w0 Scenario.w0) _ _ Hin).
Defined.

(** ** The redis authentication hook *)

Lemma acl_entry_lookup (D : RedisAuth.Deps) (topic : string)
    (fam : gmap string (RedisAuth.Access D)) (filter rw k : string) :
  RedisAuth.acl_entry D topic fam (filter, rw) !! k =
    if decide (k = filter)
    then match RedisAuth.acl_of D topic filter rw with
         | Some v => Some v
         | None => fam !! filter
         end
    else fam !! k.
Proof.
  unfold RedisAuth.acl_entry, RedisAuth.acl_of.
  destruct (RedisAuth.MatchTopic D filter topic); cbn.
  - destruct (RedisAuth.Atoi D rw) as [n|]; cbn.
    + rewrite lookup_insert. by repeat case_decide; subst.
    + by case_decide; subst.
  - by case_decide; subst.
Qed.

Lemma acl_loop_lookup (D : RedisAuth.Deps) (topic : string)
    (l : list (string * string)) (acc : gmap string (RedisAuth.Access D)) (k : string) :
  NoDup l.*1 ->
  foldl (RedisAuth.acl_entry D topic) acc l !! k =
    match (list_to_map l : gmap string string) !! k ≫= RedisAuth.acl_of D topic k with
    | Some v => Some v
    | None => acc !! k
    end.
Proof.
  revert acc. induction l as [|[filter rw] l IH]; intros acc Hnd.
  { by rewrite list_to_map_nil, lookup_empty. }
  rewrite fmap_cons in Hnd. apply NoDup_cons in Hnd as [Hfresh Hnd].
  cbn [foldl]. rewrite (IH _ Hnd), list_to_map_cons, acl_entry_lookup.
  rewrite lookup_insert. destruct (decide (k = filter)) as [->|Hne].
  - rewrite decide_True by done.
    rewrite (not_elem_of_list_to_map_1 _ _ Hfresh). cbn.
    by destruct (RedisAuth.acl_of D topic filter rw).
  - by rewrite decide_False by done.
Qed.

Lemma acl_loop_perm (D : RedisAuth.Deps) (topic : string) (res : gmap string string)
    (l : list (string * string)) :
  l ≡ₚ map_to_list res ->
  RedisAuth.acl_loop D topic l = map_imap (RedisAuth.acl_of D topic) res
  /\ (forall k, RedisAuth.acl_loop D topic l !! k
                = res !! k ≫= RedisAuth.acl_of D topic k).
Proof.
  intros Hperm.
  assert (Hnd : NoDup l.*1).
  { rewrite Hperm. apply NoDup_fst_map_to_list. }
  assert (Hl : (list_to_map l : gmap string string) = res).
  { rewrite (list_to_map_proper l (map_to_list res) Hnd Hperm).
    apply list_to_map_to_list. }
  assert (Hk : forall k, RedisAuth.acl_loop D topic l !! k
                         = res !! k ≫= RedisAuth.acl_of D topic k).
  { intros k. unfold RedisAuth.acl_loop. rewrite (acl_loop_lookup D topic l ∅ k Hnd).
    rewrite Hl, lookup_empty. by destruct (res !! k ≫= _). }
  split; [|exact Hk].
  apply map_eq. intros k. by rewrite Hk, map_lookup_imap.
Qed.

(** X14: the access map [OnACLCheck] builds does not depend on the order
    in which the [range] visits the redis reply: whatever the order, the
    map holds, for each filter of the reply that matches the topic and
    whose value [strconv.Atoi] reads, that value as an access, and
    nothing else. *)
Theorem acl_map_ignores_iteration_order
  (D : RedisAuth.Deps) (topic : string) (res : gmap string string)
  (l : list (string * string)) :
  l ≡ₚ map_to_list res ->
  RedisAuth.acl_loop D topic l = map_imap (RedisAuth.acl_of D topic) res
  /\ (forall filter,
        RedisAuth.acl_loop D topic l !! filter =
          match res !! filter with
          | Some rw =>
              if RedisAuth.MatchTopic D filter topic
              then RedisAuth.to_Access D <$> RedisAuth.Atoi D rw
              else None
          | None => None
          end).
Proof.
  intros Hperm. destruct (acl_loop_perm D topic res l Hperm) as [Heq Hk].
  split; [exact Heq|].
  intros filter. rewrite Hk. by destruct (res !! filter).
Qed.

Lemma acl_map_ignores_iteration_order_witness :
  [("c/d", "x"); ("a/b", "3")]
    ≡ₚ map_to_list ({["a/b" := "3"; "c/d" := "x"]} : gmap string string)
  /\ RedisAuth.acl_loop RedisAuth.demo "a/b" [("c/d", "x"); ("a/b", "3")]
     = map_imap (RedisAuth.acl_of RedisAuth.demo "a/b")
         ({["a/b" := "3"; "c/d" := "x"]} : gmap string string).
Proof.
  assert (Hp : [("c/d", "x"); ("a/b", "3")]
                 ≡ₚ map_to_list ({["a/b" := "3"; "c/d" := "x"]} : gmap string string)).
  { vm_compute. first [reflexivity | apply perm_swap]. }
  split; [exact Hp|].
  exact (proj1 (acl_map_ignores_iteration_order RedisAuth.demo "a/b" _ _ Hp)).
Defined.

Lemma with_default_prefixes_nonempty (D : RedisAuth.Deps) (o : RedisAuth.Options D) :
  RedisAuth.AuthKeyPrefix (RedisAuth.with_default_prefixes o) <> ""
  /\ RedisAuth.AclKeyPrefix (RedisAuth.with_default_prefixes o) <> "".
Proof. cbn. split; by case_bool_decide. Qed.

(** X10: the edge cases of [Init]. A config of a wrong type gives
    [ErrInvalidConfigType] and leaves the hook untouched, nothing done. An
    [Options] without redis options makes [Init] panic. Whenever [Init]
    returns for a nil config or an [Options], with or without an error, the
    hook holds a config and a redis client made with that config's redis
    options; both key prefixes are non-empty, the given one if it was
    non-empty and the default otherwise; the error is the error of the
    ping, wrapped, or nil if the ping passed; and the client is not
    closed, also when the ping failed. *)
Theorem init_edge_cases (D : RedisAuth.Deps) (a : RedisAuth.Auth D) :
  RedisAuth.Init D a RedisAuth.CfgOther
    = (RedisAuth.Returned (Some (RedisAuth.ErrInvalidConfigType D), a), [])
  /\ (forall o,
      RedisAuth.RedisOptions o = None ->
      RedisAuth.Init D a (RedisAuth.CfgOptions o) = (RedisAuth.Panicked, []))
  /\ (forall cfg err a',
      cfg <> RedisAuth.CfgOther ->
      (RedisAuth.Init D a cfg).1 = RedisAuth.Returned (err, a') ->
      exists o ro,
        RedisAuth.config a' = Some o
        /\ RedisAuth.db a' = Some ro
        /\ RedisAuth.RedisOptions o = Some ro
        /\ RedisAuth.AuthKeyPrefix o <> ""
        /\ RedisAuth.AclKeyPrefix o <> ""
        /\ (forall given,
              cfg = RedisAuth.CfgOptions given ->
              (RedisAuth.AuthKeyPrefix given <> "" ->
               RedisAuth.AuthKeyPrefix o = RedisAuth.AuthKeyPrefix given)
              /\ (RedisAuth.AuthKeyPrefix given = "" ->
                  RedisAuth.AuthKeyPrefix o = RedisAuth.defaultAuthkeyPrefix)
              /\ (RedisAuth.AclKeyPrefix given <> "" ->
                  RedisAuth.AclKeyPrefix o = RedisAuth.AclKeyPrefix given)
              /\ (RedisAuth.AclKeyPrefix given = "" ->
                  RedisAuth.AclKeyPrefix o = RedisAuth.defaultAclKeyPrefix)
              /\ RedisAuth.AuthMode o = RedisAuth.AuthMode given
              /\ RedisAuth.AclMode o = RedisAuth.AclMode given)
        /\ (cfg = RedisAuth.CfgNil ->
            ro = {| RedisAuth.ro_Addr := RedisAuth.defaultAddr;
                    RedisAuth.ro_Username := ""; RedisAuth.ro_Password := "";
                    RedisAuth.ro_DB := 0 |}
            /\ RedisAuth.AuthKeyPrefix o = RedisAuth.defaultAuthkeyPrefix
            /\ RedisAuth.AclKeyPrefix o = RedisAuth.defaultAclKeyPrefix
            /\ RedisAuth.AuthMode o = 0
            /\ RedisAuth.AclMode o = 0)
        /\ err = (fun e => "failed to ping service: " +:+ e) <$> RedisAuth.redis_Ping D ro
        /\ RedisAuth.EvNewClient ro ∈ (RedisAuth.Init D a cfg).2
        /\ RedisAuth.EvCloseClient ∉ (RedisAuth.Init D a cfg).2).
Proof.
  split; [done|]. split.
  { intros o Ho. unfold RedisAuth.Init. cbn. by rewrite Ho. }
  intros cfg err a' Hcfg Hret.
  assert (Hopt : exists given,
    RedisAuth.Init D a cfg = RedisAuth.Init D a (RedisAuth.CfgOptions given)
    /\ (forall g, cfg = RedisAuth.CfgOptions g -> g = given)
    /\ (cfg = RedisAuth.CfgNil -> given = RedisAuth.nil_config_options D)).
  { destruct cfg as [|g|]; [| |done].
    - exists (RedisAuth.nil_config_options D). by repeat split.
    - exists g. repeat split; [by intros ? [= ->]|done]. }
  destruct Hopt as (given & Heq & Hgiven & Hnil). rewrite Heq in *. clear Heq.
  unfold RedisAuth.Init in *. cbn [RedisAuth.RedisOptions RedisAuth.with_default_prefixes] in *.
  destruct (RedisAuth.RedisOptions given) as [ro|] eqn:Hro; [|done].
  exists (RedisAuth.with_default_prefixes given), ro.
  assert (Ha' : a' = {| RedisAuth.config := Some (RedisAuth.with_default_prefixes given);
                        RedisAuth.db := Some ro |}
                /\ err = (fun e => "failed to ping service: " +:+ e)
                           <$> RedisAuth.redis_Ping D ro).
  { destruct (RedisAuth.redis_Ping D ro); cbn in Hret; by injection Hret as <- <-. }
  destruct Ha' as [-> ->]. cbn [RedisAuth.config RedisAuth.db].
  split; [done|]. split; [done|]. split; [exact Hro|].
  split; [apply with_default_prefixes_nonempty|].
  split; [apply with_default_prefixes_nonempty|].
  split.
  { intros g ->%Hgiven. cbn. repeat split; intros Hp;
      by rewrite ?(bool_decide_eq_true_2 _ Hp), ?(bool_decide_eq_false_2 _ Hp). }
  split.
  { intros ->%Hnil. cbn in Hro. by injection Hro as <-. }
  split; [done|]. split.
  - destruct (RedisAuth.redis_Ping D ro); cbn;
      apply list_elem_of_further, list_elem_of_here.
  - intros Hin. destruct (RedisAuth.redis_Ping D ro); cbn in Hin;
      repeat (apply elem_of_cons in Hin as [Hin|Hin]; [discriminate Hin|]);
      by apply elem_of_nil in Hin.
Qed.

Lemma init_edge_cases_witness :
  RedisAuth.CfgOptions RedisAuth.demo_options <> RedisAuth.CfgOther
  /\ (RedisAuth.Init RedisAuth.demo (RedisAuth.fresh_hook RedisAuth.demo)
        (RedisAuth.CfgOptions RedisAuth.demo_options)).1
     = RedisAuth.Returned (None, RedisAuth.demo_hook)
  /\ exists o ro,
      RedisAuth.config RedisAuth.demo_hook = Some o
      /\ RedisAuth.db RedisAuth.demo_hook = Some ro
      /\ RedisAuth.RedisOptions o = Some ro
      /\ RedisAuth.AuthKeyPrefix o <> ""
      /\ RedisAuth.AclKeyPrefix o <> "".
Proof.
  assert (Hne : RedisAuth.CfgOptions RedisAuth.demo_options <> RedisAuth.CfgOther)
    by discriminate.
  assert (Hret : (RedisAuth.Init RedisAuth.demo (RedisAuth.fresh_hook RedisAuth.demo)
                    (RedisAuth.CfgOptions RedisAuth.demo_options)).1
                 = RedisAuth.Returned (None, RedisAuth.demo_hook)) by reflexivity.
  split; [exact Hne|]. split; [exact Hret|].
  destruct (proj2 (proj2 (init_edge_cases RedisAuth.demo
                            (RedisAuth.fresh_hook RedisAuth.demo)))
              _ _ _ Hne Hret)
    as (o & ro & H1 & H2 & H3 & H4 & H5 & _).
  by exists o, ro.
Defined.

(** X11: a hook initialised with a nil config runs in mode 0, for
    authentication and for access control alike. If mode 0 is the
    anonymous mode, such a hook lets every client connect and allows every
    read and write, without asking the blacklist or redis, whether or not
    the ping of [Init] passed. *)
Theorem nil_config_allows_everyone
  (D : RedisAuth.Deps) (a a' : RedisAuth.Auth D) (err : option error)
  (cl : RedisAuth.Client D) (pk : RedisAuth.Packet D) (topic : string) (write : bool) :
  RedisAuth.AuthAnonymous D = 0 ->
  (RedisAuth.Init D a RedisAuth.CfgNil).1 = RedisAuth.Returned (err, a') ->
  RedisAuth.OnConnectAuthenticate D a' cl pk = (RedisAuth.Returned true, [])
  /\ RedisAuth.OnACLCheck D a' cl topic write = (RedisAuth.Returned true, []).
Proof.
  intros Hanon. unfold RedisAuth.Init. cbn.
  destruct (RedisAuth.redis_Ping D _); intros [= <- <-];
    unfold RedisAuth.OnConnectAuthenticate, RedisAuth.OnACLCheck; cbn;
    by rewrite Hanon.
Qed.

Lemma nil_config_allows_everyone_witness :
  RedisAuth.AuthAnonymous RedisAuth.demo = 0
  /\ RedisAuth.OnConnectAuthenticate RedisAuth.demo
       {| RedisAuth.config :=
            Some (RedisAuth.with_default_prefixes
                    (RedisAuth.nil_config_options RedisAuth.demo));
          RedisAuth.db := RedisAuth.RedisOptions
                            (RedisAuth.nil_config_options RedisAuth.demo) |}
       ("mallory", "m1") "guess"
     = (RedisAuth.Returned true, []).
Proof.
  assert (Hanon : RedisAuth.AuthAnonymous RedisAuth.demo = 0) by reflexivity.
  split; [exact Hanon|].
  refine (proj1 (nil_config_allows_everyone RedisAuth.demo
                   (RedisAuth.fresh_hook RedisAuth.demo) _ None
                   ("mallory", "m1") "guess" "t" true Hanon _)).
  reflexivity.
Defined.

(** X12: what [OnConnectAuthenticate] decides on an initialised hook. It
    never panics, and it returns true exactly when the mode is anonymous,
    or the blacklist knows the client and says yes, or the blacklist does
    not know the client, the mode names a key, redis holds a non-empty
    value under the auth key for that key, the value parses into a rule
    that allows, and the password matches the rule's. Redis is only ever
    asked for the field the mode names under the auth key prefix, and
    only for a client that is neither anonymous nor known to the
    blacklist. *)
Theorem authenticate_decision
  (D : RedisAuth.Deps) (a : RedisAuth.Auth D) (o : RedisAuth.Options D)
  (ro : RedisAuth.redisOptions) (cl : RedisAuth.Client D) (pk : RedisAuth.Packet D) :
  RedisAuth.config a = Some o ->
  RedisAuth.db a = Some ro ->
  let r := RedisAuth.OnConnectAuthenticate D a cl pk in
  let bl := RedisAuth.CheckBLAuth D (RedisAuth.Blacklist_ o) cl pk in
  (r.1 = RedisAuth.Returned true \/ r.1 = RedisAuth.Returned false)
  /\ (r.1 = RedisAuth.Returned true <->
        RedisAuth.AuthMode o = RedisAuth.AuthAnonymous D
        \/ (RedisAuth.AuthMode o <> RedisAuth.AuthAnonymous D
            /\ 0 <= bl.1 /\ bl.2 = true)
        \/ (RedisAuth.AuthMode o <> RedisAuth.AuthAnonymous D
            /\ bl.1 < 0
            /\ exists key ar,
                RedisAuth.mode_key D (RedisAuth.AuthMode o) cl = Some key
                /\ RedisAuth.is_other
                     (RedisAuth.redis_HGet D (RedisAuth.AuthKeyPrefix o) key).2 = false
                /\ (RedisAuth.redis_HGet D (RedisAuth.AuthKeyPrefix o) key).1 <> ""
                /\ RedisAuth.json_Unmarshal D
                     (RedisAuth.redis_HGet D (RedisAuth.AuthKeyPrefix o) key).1
                   = Success ar
                /\ RedisAuth.Allow ar = true
                /\ RedisAuth.CompareHash D (RedisAuth.rule_Password ar)
                     (RedisAuth.pk_Password D pk) (RedisAuth.HashKey o)
                     (RedisAuth.PasswordHash o) = true))
  /\ (forall k f,
        RedisAuth.EvHGet k f ∈ r.2 ->
        k = RedisAuth.AuthKeyPrefix o
        /\ RedisAuth.mode_key D (RedisAuth.AuthMode o) cl = Some f
        /\ RedisAuth.AuthMode o <> RedisAuth.AuthAnonymous D
        /\ bl.1 < 0).
Proof.
  intros Hcfg Hdb r bl. subst r bl.
  unfold RedisAuth.OnConnectAuthenticate, RedisAuth.getAuthKey. rewrite Hcfg, Hdb.
  destruct (Z.eqb_spec (RedisAuth.AuthMode o) (RedisAuth.AuthAnonymous D)) as [Hm|Hm].
  { cbn. split; [by left|]. split; [split; [by left|done]|].
    by intros k f ?%elem_of_nil. }
  destruct (RedisAuth.CheckBLAuth D (RedisAuth.Blacklist_ o) cl pk) as [n ok].
  cbn [fst snd].
  destruct (Z.leb_spec 0 n) as [Hn|Hn].
  { cbn. split; [destruct ok; [by left|by right]|]. split.
    - split; [intros [= ->]; right; left; by repeat split|].
      intros [?|[(_ & _ & ->)|(_ & ? & _)]]; [done|done|lia].
    - by intros k f ?%elem_of_nil. }
  destruct (RedisAuth.mode_key D (RedisAuth.AuthMode o) cl) as [key|] eqn:Hkey.
  2:{ cbn. split; [by right|]. split.
      - split; [done|]. intros [?|[(_ & ? & _)|(_ & _ & k & ar & ? & _)]];
          [done|lia|done].
      - by intros k f ?%elem_of_nil. }
  destruct (RedisAuth.redis_HGet D (RedisAuth.AuthKeyPrefix o) key) as [res err] eqn:Hget.
  assert (Hq : forall k f (tl : list RedisAuth.REv),
    (forall k' f', RedisAuth.EvHGet k' f' ∉ tl) ->
    RedisAuth.EvHGet k f ∈ RedisAuth.EvHGet (RedisAuth.AuthKeyPrefix o) key :: tl ->
    k = RedisAuth.AuthKeyPrefix o /\ Some key = Some f
    /\ RedisAuth.AuthMode o <> RedisAuth.AuthAnonymous D /\ n < 0).
  { intros k f tl Htl [[= -> ->]|Hin]%elem_of_cons; [done|by destruct (Htl k f)]. }
  assert (Hnil : forall k' f', RedisAuth.EvHGet k' f' ∉ ([] : list RedisAuth.REv))
    by (intros; apply not_elem_of_nil).
  assert (Hcase : forall (b : bool) (tl : list RedisAuth.REv),
    (forall k' f', RedisAuth.EvHGet k' f' ∉ tl) ->
    (b = true <->
       exists ar,
         RedisAuth.is_other err = false /\ res <> ""
         /\ RedisAuth.json_Unmarshal D res = Success ar
         /\ RedisAuth.Allow ar = true
         /\ RedisAuth.CompareHash D (RedisAuth.rule_Password ar)
              (RedisAuth.pk_Password D pk) (RedisAuth.HashKey o)
              (RedisAuth.PasswordHash o) = true) ->
    let r := (RedisAuth.Returned b,
              RedisAuth.EvHGet (RedisAuth.AuthKeyPrefix o) key :: tl) in
    (r.1 = RedisAuth.Returned true \/ r.1 = RedisAuth.Returned false)
    /\ (r.1 = RedisAuth.Returned true <->
          RedisAuth.AuthMode o = RedisAuth.AuthAnonymous D
          \/ (RedisAuth.AuthMode o <> RedisAuth.AuthAnonymous D /\ 0 <= n /\ ok = true)
          \/ (RedisAuth.AuthMode o <> RedisAuth.AuthAnonymous D
              /\ n < 0
              /\ exists key0 ar,
                  Some key = Some key0
                  /\ RedisAuth.is_other
                       (RedisAuth.redis_HGet D (RedisAuth.AuthKeyPrefix o) key0).2 = false
                  /\ (RedisAuth.redis_HGet D (RedisAuth.AuthKeyPrefix o) key0).1 <> ""
                  /\ RedisAuth.json_Unmarshal D
                       (RedisAuth.redis_HGet D (RedisAuth.AuthKeyPrefix o) key0).1
                     = Success ar
                  /\ RedisAuth.Allow ar = true
                  /\ RedisAuth.CompareHash D (RedisAuth.rule_Password ar)
                       (RedisAuth.pk_Password D pk) (RedisAuth.HashKey o)
                       (RedisAuth.PasswordHash o) = true))
    /\ (forall k f,
          RedisAuth.EvHGet k f ∈ r.2 ->
          k = RedisAuth.AuthKeyPrefix o /\ Some key = Some f
          /\ RedisAuth.AuthMode o <> RedisAuth.AuthAnonymous D /\ n < 0)).
  { intros b tl Htl Hb r. subst r. cbn [fst snd].
    split; [destruct b; [by left|by right]|]. split; [|intros k f; by apply Hq].
    split.
    - intros [= ->]. right; right. destruct (proj1 Hb eq_refl) as (ar & H).
      split; [done|]. split; [done|]. exists key, ar. by rewrite Hget.
    - intros [?|[(_ & ? & _)|(_ & _ & key0 & ar & [= <-] & H)]]; [done|lia|].
      rewrite Hget in H. f_equal. apply Hb. by exists ar. }
  destruct (RedisAuth.is_other err) eqn:Herr; cbn [orb].
  { apply Hcase; [done|]. split; [done|]. by intros (ar & ? & _). }
  case_bool_decide as Hres.
  { apply Hcase; [done|]. split; [done|]. by intros (ar & _ & ? & _). }
  destruct (RedisAuth.json_Unmarshal D res) as [ar|e] eqn:Hjs.
  2:{ apply Hcase.
      - intros k' f' Hin. apply list_elem_of_singleton in Hin. discriminate Hin.
      - split; [done|]. by intros (ar & _ & _ & ? & _). }
  destruct (RedisAuth.Allow ar) eqn:Hal; cbn [negb].
  - apply Hcase; [done|]. split.
    + intros Hh. by exists ar.
    + intros (ar' & _ & _ & [= <-] & _ & Hh). exact Hh.
  - apply Hcase; [done|]. split; [done|].
    intros (ar' & _ & _ & [= <-] & Hal' & _). congruence.
Qed.

Lemma authenticate_decision_witness :
  RedisAuth.config RedisAuth.demo_hook
    = Some (RedisAuth.with_default_prefixes RedisAuth.demo_options)
  /\ RedisAuth.db RedisAuth.demo_hook = RedisAuth.RedisOptions RedisAuth.demo_options
  /\ forall k f,
      RedisAuth.EvHGet k f
        ∈ (RedisAuth.OnConnectAuthenticate RedisAuth.demo RedisAuth.demo_hook
             ("alice", "a1") "secret").2 ->
      k = "comqtt:auth".
Proof.
  assert (Hcfg : RedisAuth.config RedisAuth.demo_hook
                 = Some (RedisAuth.with_default_prefixes RedisAuth.demo_options))
    by reflexivity.
  assert (Hdb : RedisAuth.db RedisAuth.demo_hook
                = RedisAuth.RedisOptions RedisAuth.demo_options) by reflexivity.
  split; [exact Hcfg|]. split; [exact Hdb|].
  intros k f Hin.
  exact (proj1 (proj2 (proj2 (authenticate_decision RedisAuth.demo RedisAuth.demo_hook
                                _ _ ("alice", "a1") "secret" Hcfg Hdb)) k f Hin)).
Defined.

(** X13: what [OnACLCheck] decides on an initialised hook, whatever order
    the [range] visits the reply in. In anonymous mode it allows; a client
    the blacklist knows gets the blacklist's answer; in a mode that names
    no key it refuses; none of these asks redis. Otherwise it asks redis
    once, for the whole hash under "AclKeyPrefix:key": an error other than
    [redis.Nil] refuses, and any other reply is judged by [CheckAcl] on the
    map of the matching filters with readable values, so a client without
    any stored rule is judged on the empty map. *)
Theorem acl_check_decision
  (D : RedisAuth.Deps) (a : RedisAuth.Auth D) (o : RedisAuth.Options D)
  (ro : RedisAuth.redisOptions) (cl : RedisAuth.Client D)
  (topic : string) (write : bool) :
  RedisAuth.config a = Some o ->
  RedisAuth.db a = Some ro ->
  (forall res, RedisAuth.range_order D res ≡ₚ map_to_list res) ->
  let r := RedisAuth.OnACLCheck D a cl topic write in
  let bl := RedisAuth.CheckBLAcl D (RedisAuth.Blacklist_ o) cl topic write in
  (RedisAuth.AclMode o = RedisAuth.AuthAnonymous D ->
   r = (RedisAuth.Returned true, []))
  /\ (RedisAuth.AclMode o <> RedisAuth.AuthAnonymous D ->
      0 <= bl.1 ->
      r = (RedisAuth.Returned bl.2, []))
  /\ (RedisAuth.AclMode o <> RedisAuth.AuthAnonymous D ->
      bl.1 < 0 ->
      RedisAuth.mode_key D (RedisAuth.AclMode o) cl = None ->
      r = (RedisAuth.Returned false, []))
  /\ (forall key,
      RedisAuth.AclMode o <> RedisAuth.AuthAnonymous D ->
      bl.1 < 0 ->
      RedisAuth.mode_key D (RedisAuth.AclMode o) cl = Some key ->
      let reply := RedisAuth.redis_HGetAll D (RedisAuth.AclKeyPrefix o +:+ ":" +:+ key) in
      r = (RedisAuth.Returned
             (if RedisAuth.is_other reply.2 then false
              else RedisAuth.CheckAcl D
                     (map_imap (RedisAuth.acl_of D topic) reply.1) write),
           [RedisAuth.EvHGetAll (RedisAuth.AclKeyPrefix o +:+ ":" +:+ key)])
      /\ (reply.1 = ∅ -> RedisAuth.is_other reply.2 = false ->
          r.1 = RedisAuth.Returned (RedisAuth.CheckAcl D ∅ write))).
Proof.
  intros Hcfg Hdb Hord r bl. subst r bl.
  unfold RedisAuth.OnACLCheck, RedisAuth.getAclKey. rewrite Hcfg, Hdb.
  destruct (Z.eqb_spec (RedisAuth.AclMode o) (RedisAuth.AuthAnonymous D)) as [Hm|Hm].
  { repeat split; try done; intros; congruence. }
  destruct (RedisAuth.CheckBLAcl D (RedisAuth.Blacklist_ o) cl topic write) as [n ok].
  cbn [fst snd].
  destruct (Z.leb_spec 0 n) as [Hn|Hn].
  { repeat split; try done; intros; lia. }
  destruct (RedisAuth.mode_key D (RedisAuth.AclMode o) cl) as [key|] eqn:Hkey.
  2:{ repeat split; try done; intros; try lia; congruence. }
  split; [done|]. split; [intros; lia|]. split; [done|].
  intros key' _ _ [= <-]. cbv zeta.
  destruct (RedisAuth.redis_HGetAll D (RedisAuth.AclKeyPrefix o +:+ ":" +:+ key))
    as [res err]. cbn [fst snd].
  destruct (acl_loop_perm D topic res _ (Hord res)) as [Hloop _].
  destruct (RedisAuth.is_other err); cbn [fst snd]; [by split|].
  rewrite Hloop. split; [done|].
  intros -> _. by rewrite map_imap_empty.
Qed.

Lemma acl_check_decision_witness :
  RedisAuth.config RedisAuth.demo_hook
    = Some (RedisAuth.with_default_prefixes RedisAuth.demo_options)
  /\ RedisAuth.db RedisAuth.demo_hook = RedisAuth.RedisOptions RedisAuth.demo_options
  /\ (forall res : gmap string string,
        RedisAuth.range_order RedisAuth.demo res ≡ₚ map_to_list res)
  /\ RedisAuth.OnACLCheck RedisAuth.demo RedisAuth.demo_hook ("bob", "b1") "a/b" true
     = (RedisAuth.Returned false, [RedisAuth.EvHGetAll "acl:bob"]).
Proof.
  assert (Hcfg : RedisAuth.config RedisAuth.demo_hook
                 = Some (RedisAuth.with_default_prefixes RedisAuth.demo_options))
    by reflexivity.
  assert (Hdb : RedisAuth.db RedisAuth.demo_hook
                = RedisAuth.RedisOptions RedisAuth.demo_options) by reflexivity.
  assert (Hord : forall res : gmap string string,
                   RedisAuth.range_order RedisAuth.demo res ≡ₚ map_to_list res)
    by reflexivity.
  split; [exact Hcfg|]. split; [exact Hdb|]. split; [exact Hord|].
  refine (proj1 (proj2 (proj2 (proj2
    (acl_check_decision RedisAuth.demo RedisAuth.demo_hook _ _ ("bob", "b1") "a/b" true
       Hcfg Hdb Hord))) "bob" _ _ _)).
  - discriminate.
  - reflexivity.
  - reflexivity.
Defined.

Lemma Provides_iff (D : RedisAuth.Deps) (b : Z) :
  RedisAuth.Provides D b = true <->
    b = RedisAuth.mqtt_OnConnectAuthenticate D \/ b = RedisAuth.mqtt_OnACLCheck D.
Proof.
  unfold RedisAuth.Provides. cbn.
  destruct (Z.eqb_spec (RedisAuth.mqtt_OnConnectAuthenticate D) b),
    (Z.eqb_spec (RedisAuth.mqtt_OnACLCheck D) b); cbn; intuition congruence.
Qed.
